(** * RPC namespace builder and login check: a shallow embedding

    Two TypeScript fragments are embedded here.

    - [Polkadot]: [PolkadotPlugin.createRpcMethods] and the constructor of
      [projects/32-web3-plugin-polkadot/src/polkadot-plugin.ts], the double
      loop that turns a table of RPC endpoint names into namespaced callers
      forwarding to [this.requestManager.send].
    - [Inscribe]: [isLoggedIn] of
      [projects/03-inscribe/src/Inscribe-app/src/utils/index.ts].

    Both are written over a small model of the JavaScript they run on:
    completions (normal or thrown), ordinary objects with a prototype slot,
    and property assignment as ECMAScript's [[Set]] performs it. *)

From stdpp Require Import gmap strings list fin_maps.

Local Open Scope string_scope.
Local Open Scope list_scope.

(** ** The JavaScript fragment the two programs run on *)
Module JS.

(** Values that travel as [any]: arguments of the callers, results of the
    request manager, what a property read gives. [VNumber] covers the
    integer-valued numbers, [VRef] an object known only by its identity (a
    promise or a built-in function, say). *)
Inductive value : Type :=
| VUndefined
| VNull
| VBool (b : bool)
| VNumber (n : Z)
| VString (s : string)
| VRef (addr : N).

(** [a === b]. *)
Definition strict_equals (a b : value) : bool :=
  match a, b with
  | VUndefined, VUndefined => true
  | VNull, VNull => true
  | VBool x, VBool y => Bool.eqb x y
  | VNumber x, VNumber y => Z.eqb x y
  | VString x, VString y => String.eqb x y
  | VRef x, VRef y => N.eqb x y
  | _, _ => false
  end.

Inductive error : Type :=
| TypeError.

(** A completion record: the evaluation returned normally or threw. *)
Inductive completion (A : Type) : Type :=
| Normal (a : A)
| Throw (e : error).
Arguments Normal {A} a.
Arguments Throw {A} e.

(** [Array.prototype.includes] on an array of strings, searched for a
    string: a scan from index 0, elements compared by content. *)
Fixpoint includes (l : list string) (x : string) : bool :=
  match l with
  | [] => false
  | y :: l' => if String.eqb y x then true else includes l' x
  end.

(** *** Ordinary objects

    An object created by the literal [{}] and filled by assignments
    [o[k] = v] only. [own] holds its own properties (all of them writable
    data properties, since assignment created them); the order in which
    they enumerate is not recorded. [proto] is the [[Prototype]] slot:
    [None] stands for [%Object.prototype%], the initial one, and [Some v]
    for an object [v] installed later. *)
Record object (V : Type) : Type := Object {
  own : gmap string V;
  proto : option V
}.
Arguments Object {V} own proto.
Arguments own {V} o.
Arguments proto {V} o.

(** The literal [{}]. *)
Definition empty_object {V : Type} : object V := Object ∅ None.

(** What [[Set]] meets when it looks a key up along a prototype chain. *)
Inductive found : Type :=
| Absent          (* no object of the chain has the property *)
| WritableData    (* a data property with [[Writable]] true *)
| ReadonlyData    (* a data property with [[Writable]] false *)
| SetterProto     (* the accessor [__proto__] of [%Object.prototype%] *)
| SetterThrows.   (* an accessor whose setter is [%ThrowTypeError%] *)

(** [%Object.prototype%]: [__proto__] is its one accessor property, the
    others are writable methods. *)
Definition Object_prototype (k : string) : found :=
  if String.eqb k "__proto__" then SetterProto
  else if includes ["constructor"; "hasOwnProperty"; "isPrototypeOf";
                    "propertyIsEnumerable"; "toLocaleString"; "toString";
                    "valueOf"; "__defineGetter__"; "__defineSetter__";
                    "__lookupGetter__"; "__lookupSetter__"] k
       then WritableData
       else Absent.

(** [%Function.prototype%], whose prototype is [%Object.prototype%]:
    [length] and [name] are not writable, [caller] and [arguments] are
    accessors that throw. *)
Definition Function_prototype (k : string) : found :=
  if includes ["length"; "name"] k then ReadonlyData
  else if includes ["caller"; "arguments"] k then SetterThrows
  else if includes ["apply"; "bind"; "call"; "constructor"; "toString"] k
       then WritableData
       else Object_prototype k.

(** An arrow function: its own [length] and [name] are not writable, its
    prototype is [%Function.prototype%]. *)
Definition arrow_function (k : string) : found :=
  if includes ["length"; "name"] k then ReadonlyData
  else Function_prototype k.

(** The kinds of value that can sit in a prototype slot say what a lookup
    starting at them finds. *)
Class Chain (V : Type) : Type :=
  chain_find : V -> string -> found.

(** Along every chain the setter of [__proto__] is met under that key
    only. *)
Class ChainLaws (V : Type) `{Chain V} : Prop :=
  setter_proto_key : forall (v : V) (k : string),
    chain_find v k = SetterProto -> k = "__proto__".

(** The chain above an object, from its prototype slot on. *)
Definition above {V : Type} `{Chain V} (p : option V) (k : string) : found :=
  match p with
  | None => Object_prototype k
  | Some v => chain_find v k
  end.

#[global] Instance object_chain {V : Type} `{Chain V} : Chain (object V) :=
  fun o k =>
    match own o !! k with
    | Some _ => WritableData
    | None => above (proto o) k
    end.

(** The assignment [o[k] = v] in strict code (a class body is strict),
    [v] an object (a function counts): OrdinarySet walks from [o] up its
    chain. A writable data property, or none, ends in a data property [k]
    of [o] itself; a property that is not writable, or a setter that
    throws, ends in a TypeError; the setter of [__proto__] replaces the
    prototype of [o] and creates no property. *)
Definition object_set {V : Type} `{Chain V}
    (k : string) (v : V) (o : object V) : completion (object V) :=
  match chain_find o k with
  | Absent | WritableData => Normal (Object (<[k:=v]> (own o)) (proto o))
  | ReadonlyData | SetterThrows => Throw TypeError
  | SetterProto => Normal (Object (own o) (Some v))
  end.

(** What the assignments so far left under [k]: the own property, or for
    [__proto__] the installed prototype. *)
Definition stored {V : Type} (o : object V) (k : string) : option V :=
  match own o !! k with
  | Some v => Some v
  | None => if String.eqb k "__proto__" then proto o else None
  end.

(** A [Record<string, T>] handed in by the caller: its own enumerable
    properties, in the order [Object.keys] lists them. The order is kept
    because it is the order of the assignments to the table. (An object
    has each key once; nothing below needs that.) *)
Definition Object_keys {T : Type} (r : list (string * T)) : list string :=
  r.*1.

(** Reading [r[k]]: the property's value, or nothing ([undefined]). *)
Fixpoint Record_get {T : Type} (r : list (string * T)) (k : string) : option T :=
  match r with
  | [] => None
  | (k', t) :: r' => if String.eqb k' k then Some t else Record_get r' k
  end.

End JS.

(** ** The Polkadot plugin *)
Module Polkadot.
Import JS.

(** The argument of [requestManager.send]. *)
Record Request : Type := {
  method : string;
  params : list value
}.

(** [this.requestManager], the collaborator the callers forward to: the
    requests it was sent so far, and what it answers to the next one (a
    promise, or a throw) given those. *)
Record RequestManager : Type := {
  sent : list Request;
  transport : list Request -> Request -> completion value
}.

(** Code of the plugin runs against the request manager and may throw. *)
Definition M (A : Type) : Type :=
  RequestManager -> completion A * RequestManager.

Definition ret {A : Type} (a : A) : M A :=
  fun rm => (Normal a, rm).

Definition bind {A B : Type} (m : M A) (k : A -> M B) : M B :=
  fun rm =>
    match m rm with
    | (Normal a, rm') => k a rm'
    | (Throw e, rm') => (Throw e, rm')
    end.

(** A step that can throw but leaves the request manager alone. *)
Definition lift {A : Type} (c : completion A) : M A :=
  fun rm => (c, rm).

Notation "'let*' x ':=' m 'in' k" := (bind m (fun x => k))
  (at level 10, x name, m at level 100, k at level 200).

(** [this.requestManager.send(request)]. *)
Definition send (request : Request) : M value :=
  fun rm =>
    (transport rm (sent rm) request,
     {| sent := sent rm ++ [request]; transport := transport rm |}).

(** The template literal [`${rpcNamespace}_${endpointName}`]. *)
Definition qualified (rpcNamespace endpointName : string) : string :=
  rpcNamespace +:+ "_" +:+ endpointName.

(** The arrow function of lines 67-71, as the environment it closes over:
    [rpcNamespace] and [endpointName] are [let] bindings, fresh in every
    iteration, so each caller keeps the pair of its own iteration. ([this]
    is the one plugin, whose request manager is the state of [M].) Two
    callers are equal when they close over the same pair: the identity of
    the function object is not recorded. *)
Record RpcCaller : Type := {
  rpcNamespace : string;
  endpointName : string
}.

#[global] Instance RpcCaller_chain : Chain RpcCaller :=
  fun _ k => arrow_function k.

(** The object literal a caller passes to [send]. The function has the one
    parameter [args]: the first argument of the call, or [undefined] when
    the call has none; further arguments are dropped. *)
Definition request_of (f : RpcCaller) (argv : list value) : Request :=
  let args := nth 0 argv VUndefined in
  {| method := qualified (rpcNamespace f) (endpointName f);
     params := [args] |}.

(** Calling a caller with the arguments [argv]. *)
Definition call (f : RpcCaller) (argv : list value) : M value :=
  send (request_of f argv).

(** The types of [endPoints] and of [returnedRpcMethods]. *)
Abbreviation EndPoints := (object RpcCaller).
Abbreviation RpcMethods := (object (object RpcCaller)).

(** The [for ... of endpointNames] loop, lines 63-72. *)
Fixpoint endpoints_loop (rpcNamespace : string) (supported : list string)
    (endpointNames : list string) (endPoints : EndPoints) : M EndPoints :=
  match endpointNames with
  | [] => ret endPoints
  | endpointName :: rest =>
      if negb (includes supported (qualified rpcNamespace endpointName))
      then endpoints_loop rpcNamespace supported rest endPoints
      else
        let* endPoints' :=
          lift (object_set endpointName
                  {| rpcNamespace := rpcNamespace;
                     endpointName := endpointName |} endPoints) in
        endpoints_loop rpcNamespace supported rest endPoints'
  end.

(** The [for ... of objectKeys] loop, lines 60-74. Iterating an
    [endpointNames] that is [undefined] would throw. [endPoints] is a new
    object in every iteration and is not written to once it is assigned to
    the table, so the table can hold it by value. *)
Fixpoint namespaces_loop (rpcList : list (string * list string))
    (supported : list string) (objectKeys : list string)
    (returnedRpcMethods : RpcMethods) : M RpcMethods :=
  match objectKeys with
  | [] => ret returnedRpcMethods
  | rpcNamespace :: rest =>
      match Record_get rpcList rpcNamespace with
      | None => lift (Throw TypeError)
      | Some endpointNames =>
          let* endPoints :=
            endpoints_loop rpcNamespace supported endpointNames
              empty_object in
          let* returnedRpcMethods' :=
            lift (object_set rpcNamespace endPoints returnedRpcMethods) in
          namespaces_loop rpcList supported rest returnedRpcMethods'
      end
  end.

(** [createRpcMethods(rpcList, supported)], lines 57-76. *)
Definition createRpcMethods (rpcList : list (string * list string))
    (supported : list string) : M RpcMethods :=
  namespaces_loop rpcList supported (Object_keys rpcList) empty_object.

(** The three fields the constructor fills. *)
Record PolkadotPlugin : Type := {
  polkadot : RpcMethods;
  kusama : RpcMethods;
  substrate : RpcMethods
}.

Section Constructor.

(** The tables imported from [./interfaces/*/augment-api-rpc] and
    [./types/*/supported-rpc-methods]: parameters of the constructor
    here. *)
Variables PolkadotRpcList KusamaRpcList SubstrateRpcList :
  list (string * list string).
Variables PolkadotSupportedRpcMethods KusamaSupportedRpcMethods
  SubstrateSupportedRpcMethods : list string.

(** The constructor, lines 111-123, after [super()]. *)
Definition constructor : M PolkadotPlugin :=
  let* polkadot :=
    createRpcMethods PolkadotRpcList PolkadotSupportedRpcMethods in
  let* kusama :=
    createRpcMethods KusamaRpcList KusamaSupportedRpcMethods in
  let* substrate :=
    createRpcMethods SubstrateRpcList SubstrateSupportedRpcMethods in
  ret {| polkadot := polkadot; kusama := kusama; substrate := substrate |}.

End Constructor.

(** *** Vocabulary of the properties *)

(** A request manager that was sent nothing yet and answers every request
    with the same promise. *)
Definition idle : RequestManager :=
  {| sent := []; transport := fun _ _ => Normal (VRef 0) |}.

(** A computation that leaves the request manager as it found it, and
    whose outcome does not depend on it. *)
Definition silent {A : Type} (m : M A) : Prop :=
  exists c : completion A, forall rm : RequestManager, m rm = (c, rm).

(** The callers a table gives access to, through own properties or a
    prototype installed by the builder. *)
Definition produced (table : RpcMethods) (f : RpcCaller) : Prop :=
  exists (N e : string) (inner : EndPoints),
    stored table N = Some inner /\ stored inner e = Some f.

(** Two tables with the same outer keys, under each of them the same inner
    keys, and under each of these callers that forward the same request
    for the same arguments. *)
Definition same_tables (t1 t2 : RpcMethods) : Prop :=
  dom (own t1) =@{gset string} dom (own t2) /\
  forall (N : string) (i1 i2 : EndPoints),
    own t1 !! N = Some i1 -> own t2 !! N = Some i2 ->
    dom (own i1) =@{gset string} dom (own i2) /\
    forall (e : string) (f1 f2 : RpcCaller),
      own i1 !! e = Some f1 -> own i2 !! e = Some f2 ->
      forall argv : list value, request_of f1 argv = request_of f2 argv.

(** Building twice in a row. *)
Definition build_twice (rpcList : list (string * list string))
    (supported : list string) : M (RpcMethods * RpcMethods) :=
  let* first := createRpcMethods rpcList supported in
  let* second := createRpcMethods rpcList supported in
  ret (first, second).

(** A sequence without its repeated elements: each name stays where it
    first occurs. *)
Fixpoint dedup (seen : list string) (l : list string) : list string :=
  match l with
  | [] => []
  | x :: l' =>
      if includes seen x then dedup seen l' else x :: dedup (x :: seen) l'
  end.

(** The catalog with the repeated names of namespace [N] removed. *)
Definition without_duplicates_in (N : string)
    (rpcList : list (string * list string)) : list (string * list string) :=
  map (fun entry : string * list string =>
         if String.eqb entry.1 N then (entry.1, dedup [] entry.2) else entry)
      rpcList.

(** [built rpcList supported N inner]: [inner] is what the inner loop
    makes of the sequence the catalog has for [N]. *)
Definition built (rpcList : list (string * list string)) (supported : list string)
    (N : string) (inner : EndPoints) : Prop :=
  exists eps, Record_get rpcList N = Some eps /\
    forall rm, endpoints_loop N supported eps empty_object rm = (Normal inner, rm).

(** The table's prototype, if the builder installed one, has the initial
    prototype itself. *)
Definition tame (table : RpcMethods) : Prop :=
  forall E, proto table = Some E -> proto E = None.

(** A name the loop is done with: not supported, or its caller is in
    place. *)
Definition settled (ns : string) (supported : list string)
    (endPoints : EndPoints) (x : string) : Prop :=
  includes supported (qualified ns x) = false \/
  stored endPoints x = Some {| rpcNamespace := ns; endpointName := x |}.

(** *** Function objects told apart

    Every evaluation of the arrow function expression of lines 67-71 makes
    a new function object. Here each one carries, beside what it closes
    over, the iteration of its namespace's loop that made it, so that two
    callers written under one key can be told apart. *)
Record Function : Type := {
  closure : RpcCaller;
  created_at : nat
}.

#[global] Instance Function_chain : Chain Function :=
  fun _ k => arrow_function k.

(** The loop of lines 63-72 again, counting its iterations. *)
Fixpoint endpoints_loop_tracked (rpcNamespace : string)
    (supported : list string) (endpointNames : list string)
    (iteration : nat) (endPoints : object Function) : M (object Function) :=
  match endpointNames with
  | [] => ret endPoints
  | endpointName :: rest =>
      if negb (includes supported (qualified rpcNamespace endpointName))
      then endpoints_loop_tracked rpcNamespace supported rest (S iteration)
             endPoints
      else
        let* endPoints' :=
          lift (object_set endpointName
                  {| closure := {| rpcNamespace := rpcNamespace;
                                   endpointName := endpointName |};
                     created_at := iteration |} endPoints) in
        endpoints_loop_tracked rpcNamespace supported rest (S iteration)
          endPoints'
  end.

(** The loop of lines 60-74 and the builder, over such function objects. *)
Fixpoint namespaces_loop_tracked (rpcList : list (string * list string))
    (supported : list string) (objectKeys : list string)
    (returnedRpcMethods : object (object Function))
    : M (object (object Function)) :=
  match objectKeys with
  | [] => ret returnedRpcMethods
  | rpcNamespace :: rest =>
      match Record_get rpcList rpcNamespace with
      | None => lift (Throw TypeError)
      | Some endpointNames =>
          let* endPoints :=
            endpoints_loop_tracked rpcNamespace supported endpointNames 0
              empty_object in
          let* returnedRpcMethods' :=
            lift (object_set rpcNamespace endPoints returnedRpcMethods) in
          namespaces_loop_tracked rpcList supported rest returnedRpcMethods'
      end
  end.

Definition createRpcMethods_tracked (rpcList : list (string * list string))
    (supported : list string) : M (object (object Function)) :=
  namespaces_loop_tracked rpcList supported (Object_keys rpcList) empty_object.

(** An object with every value it holds replaced by its image. *)
Definition object_map {V W : Type} (g : V -> W) (o : object V) : object W :=
  Object (g <$> own o) (g <$> proto o).

(** The outcome of the builder over function objects, with the iterations
    left out. *)
Definition forget (r : completion (object (object Function)) * RequestManager)
    : completion RpcMethods * RequestManager :=
  match r with
  | (Normal table, rm) => (Normal (object_map (object_map closure) table), rm)
  | (Throw e, rm) => (Throw e, rm)
  end.

(** An object without an own property called [__proto__]. *)
Definition clean {V : Type} (o : object V) : Prop :=
  own o !! "__proto__" = None.

(** The table and the prototype it may have got are both clean. *)
Definition clean_table (table : RpcMethods) : Prop :=
  clean table /\ forall E, proto table = Some E -> clean E.

(** A string without the character [_]. *)
Fixpoint no_underscore (s : string) : bool :=
  match s with
  | EmptyString => true
  | String c s' =>
      if String.eqb (String c EmptyString) "_" then false
      else no_underscore s'
  end.

(** The names whose assignment throws below a function: [length] and
    [name] are not writable, [caller] and [arguments] have a setter that
    throws. *)
Definition refused_below_function (k : string) : bool :=
  includes ["length"; "name"; "caller"; "arguments"] k.

(** The catalog, the supported list and the table of the first scenario.
    *)
Definition chain_catalog : list (string * list string) :=
  [("chain", ["getBlock"; "getBlockHash"])].

Definition chain_supported : list string := ["chain_getBlock"].

Definition chain_getBlock : RpcCaller :=
  {| rpcNamespace := "chain"; endpointName := "getBlock" |}.

Definition chain_table : RpcMethods :=
  Object {["chain" := Object {["getBlock" := chain_getBlock]} None]} None.

(** A catalog that names [__proto__] as a namespace and as an endpoint,
    with every identifier supported, and the table built from it. *)
Definition proto_catalog : list (string * list string) :=
  [("__proto__", ["getBlock"]); ("chain", ["__proto__"; "getBlock"])].

Definition proto_supported : list string :=
  ["__proto___getBlock"; "chain___proto__"; "chain_getBlock"].

Definition proto_table : RpcMethods :=
  Object
    {["chain" :=
        Object {["getBlock" := chain_getBlock]}
          (Some {| rpcNamespace := "chain"; endpointName := "__proto__" |})]}
    (Some (Object
             {["getBlock" :=
                 {| rpcNamespace := "__proto__"; endpointName := "getBlock" |}]}
             None)).

(** A catalog of two namespaces, its supported list and its table. *)
Definition two_catalog : list (string * list string) :=
  [("chain", ["getBlock"; "getBlockHash"]); ("state", ["call"])].

Definition two_supported : list string := ["chain_getBlock"; "state_call"].

Definition two_table : RpcMethods :=
  Object
    {["chain" := Object {["getBlock" := chain_getBlock]} None;
      "state" :=
        Object {["call" := {| rpcNamespace := "state"; endpointName := "call" |}]}
          None]}
    None.

End Polkadot.

(** ** The login check of Inscribe *)
Module Inscribe.
Import JS.

(** The part of [InjectedAccountWithMeta] (of
    [@polkadot/extension-inject/types]) the check reads, and the source
    the extension reports. *)
Record InjectedAccountWithMeta : Type := {
  address : string;
  meta_source : string
}.

(** The names [localStorage] inherits: those of [Storage.prototype], then
    those of [%Object.prototype%]. *)
Definition Storage_inherits (k : string) : bool :=
  includes ["length"; "key"; "getItem"; "setItem"; "removeItem"; "clear";
            "constructor"] k
  || match Object_prototype k with
     | Absent => false
     | _ => true
     end.

(** What evaluating the global [localStorage] does. The items persist in
    any case; the global gives the [Storage] that holds them, or throws: a
    SecurityError where the page is denied storage, a ReferenceError where
    there is no such global. *)
Inductive thrown : Type :=
| SecurityError
| ReferenceError.

Inductive localStorage_global : Type :=
| Readable (items : gmap string string)
| Denied (items : gmap string string)
| Undeclared.

(** What a call of the check ends in. *)
Inductive result : Type :=
| Returned (b : bool)
| Raised (e : thrown).

(** Reading [localStorage[k]] from the [Storage] the global gave. The
    stored items are the named properties of a [Storage]; an inherited
    name hides the item of that name, and the read gives the built-in
    instead: the number of items for [length], a function or the prototype
    otherwise. *)
Definition Storage_get (localStorage : gmap string string) (k : string) : value :=
  if Storage_inherits k
  then if String.eqb k "length"
       then VNumber (Z.of_nat (size localStorage))
       else VRef 0
  else match localStorage !! k with
       | Some item => VString item
       | None => VUndefined
       end.

Section Key.

(** [LOCAL_STORAGE.ACCOUNT], imported from [../utils/consts]: a parameter
    here. *)
Variable ACCOUNT : string.

(** [isLoggedIn], line 4: the global is evaluated, the property read, and
    the value compared with the address. *)
Definition isLoggedIn (window : localStorage_global)
    (account : InjectedAccountWithMeta) : result :=
  match window with
  | Readable localStorage =>
      Returned (strict_equals (Storage_get localStorage ACCOUNT)
                  (VString (address account)))
  | Denied _ => Raised SecurityError
  | Undeclared => Raised ReferenceError
  end.

End Key.

End Inscribe.

Import JS Polkadot.

(** * Properties *)

(** ** Arrays and records *)

Lemma includes_true (l : list string) (x : string) :
  includes l x = true <-> x ∈ l.
Proof.
  induction l as [|y l IH]; simpl.
  - split; [discriminate | intros H; inversion H].
  - destruct (String.eqb_spec y x) as [->|Hne].
    + split; [intros _; left | reflexivity].
    + rewrite IH. split; [right; assumption |].
      intros H. inversion H; subst; [congruence | assumption].
Qed.

Lemma includes_false (l : list string) (x : string) :
  includes l x = false <-> x ∉ l.
Proof.
  rewrite <- includes_true. destruct (includes l x); split; congruence.
Qed.

Lemma Record_get_Some {T : Type} (r : list (string * T)) (k : string) (t : T) :
  Record_get r k = Some t -> (k, t) ∈ r.
Proof.
  induction r as [|[k' t'] r IH]; simpl; [discriminate |].
  destruct (String.eqb_spec k' k) as [->|Hne].
  - intros [= ->]. left.
  - intros H. right. auto.
Qed.

Lemma Record_get_keys {T : Type} (r : list (string * T)) (k : string) :
  k ∈ Object_keys r -> is_Some (Record_get r k).
Proof.
  unfold Object_keys. induction r as [|[k' t'] r IH]; simpl.
  - intros H. inversion H.
  - intros H. destruct (String.eqb_spec k' k) as [->|Hne]; [eauto |].
    apply IH. inversion H; subst; [congruence | assumption].
Qed.

(** ** Assignment to an ordinary object *)

Lemma Object_prototype_setter (k : string) :
  Object_prototype k = SetterProto -> k = "__proto__".
Proof.
  unfold Object_prototype. destruct (String.eqb_spec k "__proto__"); [auto |].
  case_match; discriminate.
Qed.

Lemma arrow_function_setter (k : string) :
  arrow_function k = SetterProto -> k = "__proto__".
Proof.
  unfold arrow_function, Function_prototype.
  repeat (case_match; try discriminate). apply Object_prototype_setter.
Qed.

#[global] Instance RpcCaller_laws : ChainLaws RpcCaller.
Proof. intros f k. apply arrow_function_setter. Qed.

#[global] Instance object_laws {V : Type} `{ChainLaws V} : ChainLaws (object V).
Proof.
  intros o k. unfold chain_find, object_chain.
  destruct (own o !! k); [discriminate |].
  destruct (proto o) as [v|]; simpl.
  - apply setter_proto_key.
  - apply Object_prototype_setter.
Qed.

Lemma chain_find_object {V : Type} `{Chain V} (o : object V) (k : string) :
  chain_find o k
  = match own o !! k with
    | Some _ => WritableData
    | None => above (proto o) k
    end.
Proof. reflexivity. Qed.

Section Assignment.
Context {V : Type} `{ChainLaws V}.
Implicit Types (o : object V) (k : string) (v : V).

Lemma object_eta o : Object (own o) (proto o) = o.
Proof. destruct o; reflexivity. Qed.

Lemma stored_own o k v : own o !! k = Some v -> stored o k = Some v.
Proof. unfold stored. intros ->. reflexivity. Qed.

Lemma stored_ne_proto o k :
  k <> "__proto__" -> stored o k = own o !! k.
Proof.
  unfold stored. intros Hk. destruct (own o !! k); [reflexivity |].
  destruct (String.eqb_spec k "__proto__"); [contradiction | reflexivity].
Qed.

(** An assignment that returns left its value under its key. *)
Lemma object_set_stored_eq k v o o' :
  object_set k v o = Normal o' -> stored o' k = Some v.
Proof.
  unfold object_set. destruct (chain_find o k) eqn:Hf; intros [= <-];
    unfold stored; simpl; rewrite ?lookup_insert_eq; try reflexivity.
  apply (setter_proto_key (V := object V)) in Hf as Hk. subst k.
  unfold chain_find, object_chain in Hf.
  destruct (own o !! "__proto__"); [discriminate | reflexivity].
Qed.

(** It touched no other key. *)
Lemma object_set_own_ne k v o o' k' :
  object_set k v o = Normal o' -> k' <> k -> own o' !! k' = own o !! k'.
Proof.
  unfold object_set. intros Hset Hne.
  destruct (chain_find o k); inversion Hset; subst; simpl;
    rewrite ?lookup_insert_ne; auto.
Qed.

Lemma object_set_stored_ne k v o o' k' :
  object_set k v o = Normal o' -> k' <> k -> stored o' k' = stored o k'.
Proof.
  intros Hset Hne. unfold stored.
  rewrite (object_set_own_ne _ _ _ _ _ Hset Hne).
  destruct (own o !! k'); [reflexivity |].
  destruct (String.eqb_spec k' "__proto__") as [->|]; [| reflexivity].
  unfold object_set in Hset.
  destruct (chain_find o k) eqn:Hf; inversion Hset; subst; simpl; try reflexivity.
  apply (setter_proto_key (V := object V)) in Hf. congruence.
Qed.

(** Under a key other than [__proto__] the value became an own property. *)
Lemma object_set_own_eq k v o o' :
  object_set k v o = Normal o' -> k <> "__proto__" -> own o' !! k = Some v.
Proof.
  intros Hset Hk. rewrite <- stored_ne_proto by assumption.
  eapply object_set_stored_eq; eassumption.
Qed.

(** Assigning to an own property overwrites it: the last write wins. *)
Lemma object_set_overwrite k v v0 o :
  own o !! k = Some v0 ->
  object_set k v o = Normal (Object (<[k:=v]> (own o)) (proto o)).
Proof.
  intros Hown. unfold object_set, chain_find, object_chain. rewrite Hown.
  reflexivity.
Qed.

(** Own properties are never removed. *)
Lemma object_set_own_mono k v o o' k' :
  object_set k v o = Normal o' -> is_Some (own o !! k') -> is_Some (own o' !! k').
Proof.
  intros Hset Hk'. destruct (decide (k' = k)) as [->|Hne].
  - destruct Hk' as [v0 Hv0]. rewrite (object_set_overwrite _ v _ _ Hv0) in Hset.
    inversion Hset; subst; simpl. rewrite lookup_insert_eq. eauto.
  - rewrite (object_set_own_ne _ _ _ _ _ Hset Hne). assumption.
Qed.

End Assignment.

(** ** Computations that leave the request manager alone *)

Lemma silent_ret {A : Type} (a : A) : silent (ret a).
Proof. exists (Normal a). reflexivity. Qed.

Lemma silent_lift {A : Type} (c : completion A) : silent (lift c).
Proof. exists c. reflexivity. Qed.

Lemma silent_bind {A B : Type} (m : M A) (k : A -> M B) :
  silent m -> (forall a, silent (k a)) -> silent (bind m k).
Proof.
  intros [c Hc] Hk. destruct c as [a|e].
  - destruct (Hk a) as [c' Hc']. exists c'. intros rm.
    unfold bind. rewrite Hc. apply Hc'.
  - exists (Throw e). intros rm. unfold bind. rewrite Hc. reflexivity.
Qed.

Lemma silent_run {A : Type} (m : M A) (rm : RequestManager) :
  silent m -> forall rm0, m rm0 = ((m rm).1, rm0).
Proof. intros [c Hc] rm0. rewrite (Hc rm). apply Hc. Qed.

Lemma endpoints_loop_silent ns supported endpointNames endPoints :
  silent (endpoints_loop ns supported endpointNames endPoints).
Proof.
  revert endPoints.
  induction endpointNames as [|e rest IH]; intros endPoints; simpl.
  - apply silent_ret.
  - destruct (negb _); [apply IH |].
    apply silent_bind; [apply silent_lift | intros o; apply IH].
Qed.

Lemma namespaces_loop_silent rpcList supported objectKeys table :
  silent (namespaces_loop rpcList supported objectKeys table).
Proof.
  revert table.
  induction objectKeys as [|ns rest IH]; intros table; simpl.
  - apply silent_ret.
  - destruct (Record_get rpcList ns) as [eps|]; [| apply silent_lift].
    apply silent_bind; [apply endpoints_loop_silent | intros inner].
    apply silent_bind; [apply silent_lift | intros t; apply IH].
Qed.

Lemma createRpcMethods_silent rpcList supported :
  silent (createRpcMethods rpcList supported).
Proof. apply namespaces_loop_silent. Qed.

Lemma constructor_silent pl kl sl ps ks ss :
  silent (constructor pl kl sl ps ks ss).
Proof.
  unfold constructor.
  repeat (apply silent_bind; [apply createRpcMethods_silent | intros ?]).
  apply silent_ret.
Qed.

(** Running a silent computation: its outcome, at the same request
    manager. *)
Lemma silent_inv {A : Type} (m : M A) (rm rm' : RequestManager) (c : completion A) :
  silent m -> m rm = (c, rm') -> rm' = rm /\ forall rm0, m rm0 = (c, rm0).
Proof.
  intros [c0 Hc0] Hrun. rewrite Hc0 in Hrun. inversion Hrun; subst. auto.
Qed.

(** ** The inner loop *)

(** What the loop leaves under a key was there before, or was put there
    for a supported name of the sequence. *)
Lemma endpoints_loop_stored ns supported endpointNames endPoints rm endPoints' rm' :
  endpoints_loop ns supported endpointNames endPoints rm = (Normal endPoints', rm') ->
  forall e f, stored endPoints' e = Some f ->
    stored endPoints e = Some f \/
    (e ∈ endpointNames /\ includes supported (qualified ns e) = true /\
     f = {| rpcNamespace := ns; endpointName := e |}).
Proof.
  revert endPoints rm.
  induction endpointNames as [|x rest IH]; intros endPoints rm; simpl.
  - intros [= <- <-] e f Hf. auto.
  - destruct (includes supported (qualified ns x)) eqn:Hs; simpl.
    + unfold bind, lift.
      destruct (object_set x _ endPoints) as [o1|err] eqn:Hset; [| discriminate].
      intros Hrun e f Hf.
      destruct (IH _ _ Hrun e f Hf) as [Hold | (Hin & Hsup & ->)].
      * destruct (decide (e = x)) as [->|Hne].
        -- rewrite (object_set_stored_eq _ _ _ _ Hset) in Hold.
           inversion Hold; subst. right. repeat split; [left | assumption].
        -- rewrite (object_set_stored_ne _ _ _ _ _ Hset Hne) in Hold. auto.
      * right. repeat split; [right; assumption | assumption].
    + intros Hrun e f Hf.
      destruct (IH _ _ Hrun e f Hf) as [Hold | (Hin & Hsup & ->)]; [auto |].
      right. repeat split; [right; assumption | assumption].
Qed.

Lemma stored_empty {V : Type} (k : string) : stored (@empty_object V) k = None.
Proof.
  unfold stored, empty_object; simpl. rewrite lookup_empty.
  destruct (String.eqb k "__proto__"); reflexivity.
Qed.

(** A namespace none of whose names is supported gets the empty object. *)
Lemma endpoints_loop_unsupported ns supported endpointNames endPoints :
  (forall e, e ∈ endpointNames -> qualified ns e ∉ supported) ->
  endpoints_loop ns supported endpointNames endPoints
  = ret endPoints.
Proof.
  induction endpointNames as [|x rest IH]; intros Hnone; simpl; [reflexivity |].
  assert (includes supported (qualified ns x) = false) as ->.
  { apply includes_false, Hnone. left. }
  simpl. apply IH. intros e He. apply Hnone. right. assumption.
Qed.

(** A caller in place for its own name stays in place. *)
Lemma endpoints_loop_keeps ns supported endpointNames endPoints rm endPoints' rm' e :
  endpoints_loop ns supported endpointNames endPoints rm = (Normal endPoints', rm') ->
  stored endPoints e = Some {| rpcNamespace := ns; endpointName := e |} ->
  stored endPoints' e = Some {| rpcNamespace := ns; endpointName := e |}.
Proof.
  revert endPoints rm.
  induction endpointNames as [|x rest IH]; intros endPoints rm; simpl.
  - intros [= <- <-]. auto.
  - destruct (includes supported (qualified ns x)); simpl; [| apply IH].
    unfold bind, lift.
    destruct (object_set x _ endPoints) as [o1|err] eqn:Hset; [| discriminate].
    intros Hrun Hst. apply (IH _ _ Hrun).
    destruct (decide (e = x)) as [->|Hne].
    + eapply object_set_stored_eq; eassumption.
    + rewrite (object_set_stored_ne _ _ _ _ _ Hset Hne). assumption.
Qed.

(** Every supported name of the sequence ends with its caller in place. *)
Lemma endpoints_loop_present ns supported endpointNames endPoints rm endPoints' rm' e :
  endpoints_loop ns supported endpointNames endPoints rm = (Normal endPoints', rm') ->
  e ∈ endpointNames -> includes supported (qualified ns e) = true ->
  stored endPoints' e = Some {| rpcNamespace := ns; endpointName := e |}.
Proof.
  revert endPoints rm.
  induction endpointNames as [|x rest IH]; intros endPoints rm; simpl.
  - intros _ Hin. inversion Hin.
  - intros Hrun Hin Hsup. destruct (decide (e = x)) as [->|Hne].
    + rewrite Hsup in Hrun. simpl in Hrun. unfold bind, lift in Hrun.
      destruct (object_set x _ endPoints) as [o1|err] eqn:Hset; [| discriminate].
      eapply endpoints_loop_keeps; [exact Hrun |].
      eapply object_set_stored_eq; eassumption.
    + assert (e ∈ rest) as Hrest
        by (inversion Hin; subst; [congruence | assumption]).
      destruct (includes supported (qualified ns x)); simpl in Hrun.
      * unfold bind, lift in Hrun.
        destruct (object_set x _ endPoints) as [o1|err]; [| discriminate].
        eapply IH; eassumption.
      * eapply IH; eassumption.
Qed.

(** ** The outer loop *)

Lemma built_unique rpcList supported N i1 i2 :
  built rpcList supported N i1 -> built rpcList supported N i2 -> i1 = i2.
Proof.
  intros (eps1 & Hg1 & H1) (eps2 & Hg2 & H2).
  rewrite Hg1 in Hg2. inversion Hg2; subst.
  specialize (H1 idle). rewrite H2 in H1. congruence.
Qed.

(** What the outer loop leaves under a key was there before, or was built
    for a key of the list. *)
Lemma namespaces_loop_stored rpcList supported objectKeys table rm table' rm' :
  namespaces_loop rpcList supported objectKeys table rm = (Normal table', rm') ->
  forall N inner, stored table' N = Some inner ->
    stored table N = Some inner \/
    (N ∈ objectKeys /\ built rpcList supported N inner).
Proof.
  revert table rm.
  induction objectKeys as [|ns rest IH]; intros table rm; simpl.
  - intros [= <- <-] N inner Hst. auto.
  - destruct (Record_get rpcList ns) as [eps|] eqn:Hget; [| discriminate].
    unfold bind at 1.
    destruct (endpoints_loop ns supported eps empty_object rm)
      as [[i|err] rm1] eqn:Hinner; [| discriminate].
    destruct (silent_inv _ _ _ _ (endpoints_loop_silent _ _ _ _) Hinner)
      as [-> Hall].
    unfold bind, lift.
    destruct (object_set ns i table) as [t1|err] eqn:Hset; [| discriminate].
    intros Hrun N inner Hst.
    destruct (IH _ _ Hrun N inner Hst) as [Hold | [Hin Hb]].
    + destruct (decide (N = ns)) as [->|Hne].
      * rewrite (object_set_stored_eq _ _ _ _ Hset) in Hold.
        inversion Hold; subst. right. split; [left |].
        exists eps. auto.
      * rewrite (object_set_stored_ne _ _ _ _ _ Hset Hne) in Hold. auto.
    + right. split; [right; assumption | assumption].
Qed.

(** An own property that is what the catalog builds for its key stays as
    it is. *)
Lemma namespaces_loop_keeps rpcList supported objectKeys table rm table' rm' N inner :
  namespaces_loop rpcList supported objectKeys table rm = (Normal table', rm') ->
  own table !! N = Some inner -> built rpcList supported N inner ->
  own table' !! N = Some inner.
Proof.
  revert table rm.
  induction objectKeys as [|ns rest IH]; intros table rm; simpl.
  - intros [= <- <-]. auto.
  - destruct (Record_get rpcList ns) as [eps|] eqn:Hget; [| discriminate].
    unfold bind at 1.
    destruct (endpoints_loop ns supported eps empty_object rm)
      as [[i|err] rm1] eqn:Hinner; [| discriminate].
    destruct (silent_inv _ _ _ _ (endpoints_loop_silent _ _ _ _) Hinner)
      as [-> Hall].
    unfold bind, lift.
    destruct (object_set ns i table) as [t1|err] eqn:Hset; [| discriminate].
    intros Hrun Hown Hb. apply (IH _ _ Hrun); [| assumption].
    destruct (decide (N = ns)) as [->|Hne].
    + assert (i = inner) as ->.
      { eapply built_unique; [| exact Hb]. exists eps. auto. }
      rewrite (object_set_overwrite _ inner _ _ Hown) in Hset.
      inversion Hset; subst; simpl. apply lookup_insert_eq.
    + rewrite (object_set_own_ne _ _ _ _ _ Hset Hne). assumption.
Qed.

(** Every key of the list other than [__proto__] ends as an own property,
    holding what the catalog builds for it. *)
Lemma namespaces_loop_present rpcList supported objectKeys table rm table' rm' N :
  namespaces_loop rpcList supported objectKeys table rm = (Normal table', rm') ->
  N ∈ objectKeys -> N <> "__proto__" ->
  exists inner, own table' !! N = Some inner /\ built rpcList supported N inner.
Proof.
  revert table rm.
  induction objectKeys as [|ns rest IH]; intros table rm; simpl.
  - intros _ Hin. inversion Hin.
  - destruct (Record_get rpcList ns) as [eps|] eqn:Hget; [| discriminate].
    unfold bind at 1.
    destruct (endpoints_loop ns supported eps empty_object rm)
      as [[i|err] rm1] eqn:Hinner; [| discriminate].
    destruct (silent_inv _ _ _ _ (endpoints_loop_silent _ _ _ _) Hinner)
      as [-> Hall].
    unfold bind, lift.
    destruct (object_set ns i table) as [t1|err] eqn:Hset; [| discriminate].
    intros Hrun Hin Hproto.
    destruct (decide (N = ns)) as [->|Hne].
    + exists i. assert (built rpcList supported ns i) as Hb by (exists eps; auto).
      split; [| assumption].
      eapply namespaces_loop_keeps; [exact Hrun | | exact Hb].
      eapply object_set_own_eq; eassumption.
    + apply (IH _ _ Hrun); [| assumption].
      inversion Hin; subst; [congruence | assumption].
Qed.

(** ** The builder *)

(** Whatever the table holds, under an own key or as an installed
    prototype, comes from the catalog and from the supported list. *)
Lemma createRpcMethods_stored rpcList supported rm table rm' N inner e f :
  createRpcMethods rpcList supported rm = (Normal table, rm') ->
  stored table N = Some inner -> stored inner e = Some f ->
  (exists eps, Record_get rpcList N = Some eps /\ e ∈ eps) /\
  includes supported (qualified N e) = true /\
  f = {| rpcNamespace := N; endpointName := e |}.
Proof.
  intros Hrun HN He.
  destruct (namespaces_loop_stored _ _ _ _ _ _ _ Hrun N inner HN)
    as [Hold | [_ (eps & Hget & Hinner)]].
  { rewrite stored_empty in Hold. discriminate. }
  destruct (endpoints_loop_stored _ _ _ _ _ _ _ (Hinner idle) e f He)
    as [Hold | (Hin & Hsup & Hf)].
  { rewrite stored_empty in Hold. discriminate. }
  eauto.
Qed.

(** A supported endpoint of the catalog has its entry, [__proto__] apart:
    the table the builder returns holds, under the namespace and the
    endpoint name, the caller of that pair. *)
Lemma createRpcMethods_entry rpcList supported rm table rm' N eps e :
  createRpcMethods rpcList supported rm = (Normal table, rm') ->
  Record_get rpcList N = Some eps -> e ∈ eps ->
  qualified N e ∈ supported ->
  N <> "__proto__" -> e <> "__proto__" ->
  exists inner,
    own table !! N = Some inner /\
    own inner !! e = Some {| rpcNamespace := N; endpointName := e |}.
Proof.
  intros Hrun Hget He Hsup HN Hne.
  assert (N ∈ Object_keys rpcList) as Hin.
  { apply Record_get_Some in Hget. unfold Object_keys.
    apply list_elem_of_fmap. exists (N, eps). auto. }
  destruct (namespaces_loop_present _ _ _ _ _ _ _ N Hrun Hin HN)
    as (inner & Hown & eps' & Hget' & Hinner).
  rewrite Hget in Hget'. inversion Hget'; subst eps'.
  exists inner. split; [assumption |].
  rewrite <- stored_ne_proto by assumption.
  eapply endpoints_loop_present; [apply (Hinner idle) | assumption |].
  apply includes_true. assumption.
Qed.

(** C1. Every entry of the table the builder returns is justified by
    membership: an endpoint name [e] found under namespace [N] is an
    element of the catalog's sequence for [N], the identifier [N_e] is in
    the supported list, and the caller stored there forwards under that
    identifier; every caller the table gives access to forwards under a
    method name of the supported list; an endpoint whose identifier is not
    supported has no entry. *)
Theorem C1_entries_justified rpcList supported rm table rm' :
  createRpcMethods rpcList supported rm = (Normal table, rm') ->
  (forall N inner e f,
     own table !! N = Some inner -> own inner !! e = Some f ->
     (exists eps, Record_get rpcList N = Some eps /\ e ∈ eps) /\
     N +:+ "_" +:+ e ∈ supported /\
     forall argv, method (request_of f argv) = N +:+ "_" +:+ e) /\
  (forall f argv, produced table f -> method (request_of f argv) ∈ supported) /\
  (forall N inner e,
     own table !! N = Some inner -> N +:+ "_" +:+ e ∉ supported ->
     own inner !! e = None).
Proof.
  intros Hrun. repeat split.
  - destruct (createRpcMethods_stored _ _ _ _ _ N inner e f Hrun)
      as (Hcat & _ & _); auto using stored_own.
  - destruct (createRpcMethods_stored _ _ _ _ _ N inner e f Hrun)
      as (_ & Hsup & _); auto using stored_own.
    apply includes_true in Hsup. exact Hsup.
  - intros argv.
    destruct (createRpcMethods_stored _ _ _ _ _ N inner e f Hrun)
      as (_ & _ & ->); auto using stored_own.
  - intros f argv (N & e & inner & HN & He).
    destruct (createRpcMethods_stored _ _ _ _ _ N inner e f Hrun HN He)
      as (_ & Hsup & ->).
    apply includes_true in Hsup. exact Hsup.
  - intros N inner e HN Hnot.
    destruct (own inner !! e) as [f|] eqn:He; [| reflexivity].
    destruct (createRpcMethods_stored _ _ _ _ _ N inner e f Hrun)
      as (_ & Hsup & _); auto using stored_own.
    apply includes_true in Hsup. contradiction.
Qed.


(** C3, as amended. When the builder returns, every key of the catalog
    other than [__proto__] is an own key of the table, and a namespace
    none of whose endpoints is supported is mapped to the empty object. *)
Theorem C3_namespaces_present rpcList supported rm table rm' N :
  createRpcMethods rpcList supported rm = (Normal table, rm') ->
  N ∈ Object_keys rpcList -> N <> "__proto__" ->
  is_Some (own table !! N) /\
  ((forall eps e, Record_get rpcList N = Some eps -> e ∈ eps ->
      N +:+ "_" +:+ e ∉ supported) ->
   own table !! N = Some empty_object).
Proof.
  intros Hrun Hin Hne.
  destruct (namespaces_loop_present _ _ _ _ _ _ _ N Hrun Hin Hne)
    as (inner & Hown & eps & Hget & Hinner).
  split; [eauto |]. intros Hnone. rewrite Hown. f_equal.
  specialize (Hinner idle).
  rewrite endpoints_loop_unsupported in Hinner by eauto.
  inversion Hinner. reflexivity.
Qed.

(** ** When the builder cannot throw *)

Lemma Object_prototype_cases (k : string) :
  (Object_prototype k = SetterProto /\ k = "__proto__") \/
  (k <> "__proto__" /\
   (Object_prototype k = WritableData \/ Object_prototype k = Absent)).
Proof.
  unfold Object_prototype. destruct (String.eqb_spec k "__proto__"); [auto |].
  right. split; [assumption |]. case_match; auto.
Qed.

(** Below [%Object.prototype%] alone, assigning under a key other than
    [__proto__] adds or overwrites an own property. *)
Lemma object_set_plain {V : Type} `{Chain V} (k : string) (v : V) (o : object V) :
  proto o = None -> k <> "__proto__" ->
  object_set k v o = Normal (Object (<[k:=v]> (own o)) None).
Proof.
  intros Hp Hk. unfold object_set, chain_find, object_chain. rewrite Hp.
  destruct (own o !! k); [reflexivity |]. simpl.
  destruct (Object_prototype_cases k) as [[_ ?] | [_ [-> | ->]]];
    [contradiction | reflexivity | reflexivity].
Qed.

Lemma endpoints_loop_normal ns supported endpointNames endPoints :
  proto endPoints = None ->
  ("__proto__" ∈ endpointNames -> qualified ns "__proto__" ∉ supported) ->
  exists endPoints', proto endPoints' = None /\
    forall rm, endpoints_loop ns supported endpointNames endPoints rm
               = (Normal endPoints', rm).
Proof.
  revert endPoints.
  induction endpointNames as [|x rest IH]; intros endPoints Hp Hno; simpl.
  - exists endPoints. auto.
  - destruct (includes supported (qualified ns x)) eqn:Hs; simpl.
    + assert (x <> "__proto__") as Hx.
      { intros ->. apply includes_true in Hs. apply Hno; [left | assumption]. }
      unfold bind, lift. rewrite (object_set_plain _ _ _ Hp Hx).
      apply IH; [reflexivity |]. intros Hin. apply Hno. right. assumption.
    + apply IH; [assumption |]. intros Hin. apply Hno. right. assumption.
Qed.

Lemma object_set_tame (N : string) (E : EndPoints) (table : RpcMethods) :
  tame table -> proto E = None ->
  exists table', object_set N E table = Normal table' /\ tame table'.
Proof.
  intros Ht HE. unfold object_set. rewrite chain_find_object.
  destruct (own table !! N).
  { eexists. split; [reflexivity |]. exact Ht. }
  assert (above (proto table) N = Object_prototype N \/
          above (proto table) N = WritableData) as Habove.
  { destruct (proto table) as [E0|] eqn:Hp; simpl; [| auto].
    rewrite chain_find_object. destruct (own E0 !! N); [auto |].
    rewrite (Ht E0 Hp). auto. }
  destruct Habove as [-> | ->].
  - destruct (Object_prototype_cases N) as [[-> _] | [_ [-> | ->]]];
      eexists; (split; [reflexivity |]); try exact Ht.
    intros E0 [= <-]. exact HE.
  - eexists. split; [reflexivity |]. exact Ht.
Qed.

Lemma namespaces_loop_normal rpcList supported objectKeys table :
  (forall N eps, (N, eps) ∈ rpcList -> "__proto__" ∈ eps ->
     qualified N "__proto__" ∉ supported) ->
  (forall N, N ∈ objectKeys -> is_Some (Record_get rpcList N)) ->
  tame table ->
  exists table', forall rm,
    namespaces_loop rpcList supported objectKeys table rm = (Normal table', rm).
Proof.
  intros Hno. revert table.
  induction objectKeys as [|ns rest IH]; intros table Hkeys Ht; simpl.
  - exists table. reflexivity.
  - destruct (Hkeys ns) as [eps Hget]; [left |]. rewrite Hget.
    destruct (endpoints_loop_normal ns supported eps empty_object)
      as (inner & Hp & Hinner); [reflexivity | |].
    { apply Hno. apply Record_get_Some. assumption. }
    destruct (object_set_tame ns inner table Ht Hp) as (t1 & Hset & Ht1).
    destruct (IH t1) as (t' & Hrest); [| assumption |].
    { intros N HN. apply Hkeys. right. assumption. }
    exists t'. intros rm. unfold bind, lift. rewrite Hinner, Hset. apply Hrest.
Qed.

(** C7, as amended. On a catalog and a supported list in which no
    supported endpoint is named [__proto__], the builder returns a table:
    none of its assignments throws, and the branch of a missing sequence
    is not reached. *)
Theorem C7_builder_returns rpcList supported rm :
  (forall N eps, (N, eps) ∈ rpcList -> "__proto__" ∈ eps ->
     N +:+ "_" +:+ "__proto__" ∉ supported) ->
  exists table, createRpcMethods rpcList supported rm = (Normal table, rm).
Proof.
  intros Hno.
  destruct (namespaces_loop_normal rpcList supported (Object_keys rpcList)
              empty_object Hno) as (table & Hrun).
  - apply Record_get_keys.
  - intros E. discriminate.
  - exists table. apply Hrun.
Qed.

(** ** The request manager during construction and during a call *)

(** C8. Running the builder sends the request manager nothing and leaves
    it as it was, whether the builder returns or throws; so does the
    constructor, which runs it three times. A request is sent only when a
    caller is called: the call appends its one request to those sent. *)
Theorem C8_builder_sends_nothing rpcList supported rm :
  (createRpcMethods rpcList supported rm).2 = rm /\
  (forall pl kl sl ps ks ss, (constructor pl kl sl ps ks ss rm).2 = rm) /\
  (forall f argv, sent (call f argv rm).2 = sent rm ++ [request_of f argv]).
Proof.
  split; [| split].
  - rewrite (silent_run _ rm (createRpcMethods_silent rpcList supported) rm).
    reflexivity.
  - intros pl kl sl ps ks ss.
    rewrite (silent_run _ rm (constructor_silent pl kl sl ps ks ss) rm).
    reflexivity.
  - reflexivity.
Qed.

(** C9. Every caller forwards a [params] list of length one: whatever the
    arguments of the call, and with no argument at all the request is
    [{ method: "N_e", params: [undefined] }]. *)
Theorem C9_params_singleton f argv rm :
  length (params (request_of f argv)) = 1 /\
  request_of f []
  = {| method := rpcNamespace f +:+ "_" +:+ endpointName f;
       params := [VUndefined] |} /\
  sent (call f [] rm).2
  = sent rm ++ [{| method := rpcNamespace f +:+ "_" +:+ endpointName f;
                   params := [VUndefined] |}].
Proof. repeat split. Qed.

(** ** Building again, and with another list of the same members *)

Lemma same_tables_refl table : same_tables table table.
Proof.
  split; [reflexivity |]. intros N i1 i2 H1 H2.
  rewrite H1 in H2. inversion H2; subst. split; [reflexivity |].
  intros e f1 f2 Hf1 Hf2. rewrite Hf1 in Hf2. inversion Hf2; subst. reflexivity.
Qed.

(** C5. When the builder returns a table, building twice in a row from the
    same catalog and supported list returns two tables; they have the same
    outer keys, the same inner keys, and callers that forward the same
    method name and params for the same arguments. *)
Theorem C5_build_twice rpcList supported rm table rm' :
  createRpcMethods rpcList supported rm = (Normal table, rm') ->
  exists second,
    build_twice rpcList supported rm = (Normal (table, second), rm) /\
    same_tables table second.
Proof.
  intros Hrun.
  destruct (silent_inv _ _ _ _ (createRpcMethods_silent _ _) Hrun) as [-> Hall].
  exists table. split; [| apply same_tables_refl].
  unfold build_twice, bind, ret. rewrite !Hall. reflexivity.
Qed.

Lemma includes_ext (s1 s2 : list string) :
  (forall x, x ∈ s1 <-> x ∈ s2) -> forall x, includes s1 x = includes s2 x.
Proof.
  intros Hmem x. destruct (includes s2 x) eqn:H2.
  - apply includes_true, Hmem, includes_true, H2.
  - apply includes_false. rewrite Hmem. apply includes_false, H2.
Qed.

Lemma endpoints_loop_ext ns s1 s2 endpointNames endPoints :
  (forall x, includes s1 x = includes s2 x) ->
  endpoints_loop ns s1 endpointNames endPoints
  = endpoints_loop ns s2 endpointNames endPoints.
Proof.
  intros Hext. revert endPoints.
  induction endpointNames as [|x rest IH]; intros endPoints; simpl;
    [reflexivity |].
  rewrite Hext. destruct (negb _); [apply IH |].
  unfold bind, lift. destruct (object_set _ _ _); [apply IH | reflexivity].
Qed.

Lemma namespaces_loop_ext rpcList s1 s2 objectKeys table rm :
  (forall x, includes s1 x = includes s2 x) ->
  namespaces_loop rpcList s1 objectKeys table rm
  = namespaces_loop rpcList s2 objectKeys table rm.
Proof.
  intros Hext. revert table rm.
  induction objectKeys as [|ns rest IH]; intros table rm; simpl;
    [reflexivity |].
  destruct (Record_get rpcList ns) as [eps|]; [| reflexivity].
  unfold bind at 1 3. rewrite (endpoints_loop_ext ns s1 s2 eps _ Hext).
  destruct (endpoints_loop ns s2 eps empty_object rm) as [[i|err] rm1];
    [| reflexivity].
  unfold bind, lift. destruct (object_set ns i table); [apply IH | reflexivity].
Qed.

(** C10. The builder uses the supported list through membership only: two
    lists with the same members, in whatever order and however often
    repeated, give the same outcome, and the tables returned have the same
    keys and the same forwarding. *)
Theorem C10_membership_only rpcList s1 s2 rm :
  (forall x, x ∈ s1 <-> x ∈ s2) ->
  createRpcMethods rpcList s1 rm = createRpcMethods rpcList s2 rm /\
  forall t1 t2 rm1 rm2,
    createRpcMethods rpcList s1 rm = (Normal t1, rm1) ->
    createRpcMethods rpcList s2 rm = (Normal t2, rm2) ->
    same_tables t1 t2.
Proof.
  intros Hmem.
  assert (createRpcMethods rpcList s1 rm = createRpcMethods rpcList s2 rm)
    as Heq by (apply namespaces_loop_ext, includes_ext, Hmem).
  split; [exact Heq |]. intros t1 t2 rm1 rm2 H1 H2.
  rewrite Heq, H2 in H1. inversion H1; subst. apply same_tables_refl.
Qed.

(** ** Repeated endpoint names *)

(** Assigning what is already in place changes nothing. *)
Lemma object_set_again (x : string) (f : RpcCaller) (endPoints : EndPoints) :
  stored endPoints x = Some f -> object_set x f endPoints = Normal endPoints.
Proof.
  unfold stored. intros Hst. destruct (own endPoints !! x) as [f0|] eqn:Hown.
  - inversion Hst; subst. rewrite (object_set_overwrite _ f _ _ Hown).
    rewrite insert_id by assumption. rewrite object_eta. reflexivity.
  - destruct (String.eqb_spec x "__proto__") as [->|]; [| discriminate].
    unfold object_set. rewrite chain_find_object, Hown, Hst. simpl.
    rewrite <- Hst, object_eta. reflexivity.
Qed.

Lemma endpoints_loop_dedup ns supported endpointNames seen endPoints rm :
  (forall x, x ∈ seen -> settled ns supported endPoints x) ->
  endpoints_loop ns supported (dedup seen endpointNames) endPoints rm
  = endpoints_loop ns supported endpointNames endPoints rm.
Proof.
  revert seen endPoints.
  induction endpointNames as [|x rest IH]; intros seen endPoints Hseen; simpl;
    [reflexivity |].
  destruct (includes seen x) eqn:Hx.
  - apply includes_true in Hx. rewrite (IH _ _ Hseen).
    destruct (Hseen x Hx) as [-> | Hst]; simpl; [reflexivity |].
    destruct (includes supported (qualified ns x)); simpl; [| reflexivity].
    unfold bind, lift. rewrite (object_set_again _ _ _ Hst). reflexivity.
  - simpl. destruct (includes supported (qualified ns x)) eqn:Hs; simpl.
    + unfold bind, lift.
      destruct (object_set x _ endPoints) as [o1|err] eqn:Hset; [| reflexivity].
      apply IH. intros y Hy. destruct (decide (y = x)) as [->|Hne].
      * right. eapply object_set_stored_eq; eassumption.
      * inversion Hy; subst; [congruence |].
        destruct (Hseen y) as [Hu | Hst]; [assumption | left; assumption |].
        right. rewrite (object_set_stored_ne _ _ _ _ _ Hset Hne). assumption.
    + apply IH. intros y Hy. inversion Hy; subst; [left; assumption | auto].
Qed.

Lemma Object_keys_without_duplicates N rpcList :
  Object_keys (without_duplicates_in N rpcList) = Object_keys rpcList.
Proof.
  unfold Object_keys, without_duplicates_in.
  induction rpcList as [|[k eps] r IH]; simpl; [reflexivity |].
  destruct (String.eqb k N); simpl; f_equal; exact IH.
Qed.

Lemma Record_get_without_duplicates N rpcList k :
  Record_get (without_duplicates_in N rpcList) k
  = (fun eps => if String.eqb k N then dedup [] eps else eps)
      <$> Record_get rpcList k.
Proof.
  unfold without_duplicates_in.
  induction rpcList as [|[k' eps] r IH]; simpl; [reflexivity |].
  destruct (String.eqb_spec k' N) as [->|HN]; simpl.
  - destruct (String.eqb_spec N k) as [Heq|Hk]; simpl; [| exact IH].
    subst k. rewrite String.eqb_refl. reflexivity.
  - destruct (String.eqb_spec k' k) as [Heq|Hk]; simpl; [| exact IH].
    subst k. destruct (String.eqb_spec k' N); [contradiction | reflexivity].
Qed.

Lemma namespaces_loop_dedup N rpcList supported objectKeys table rm :
  namespaces_loop (without_duplicates_in N rpcList) supported objectKeys table rm
  = namespaces_loop rpcList supported objectKeys table rm.
Proof.
  revert table rm.
  induction objectKeys as [|ns rest IH]; intros table rm; simpl;
    [reflexivity |].
  rewrite Record_get_without_duplicates.
  destruct (Record_get rpcList ns) as [eps|]; simpl; [| reflexivity].
  assert (endpoints_loop ns supported
            (if String.eqb ns N then dedup [] eps else eps) empty_object rm
          = endpoints_loop ns supported eps empty_object rm) as Hinner.
  { destruct (String.eqb ns N); [| reflexivity].
    apply endpoints_loop_dedup. intros x Hx. inversion Hx. }
  unfold bind at 1 3. rewrite Hinner.
  destruct (endpoints_loop ns supported eps empty_object rm) as [[i|err] rm1];
    [| reflexivity].
  unfold bind, lift. destruct (object_set ns i table); [apply IH | reflexivity].
Qed.

(** *** The builder over function objects *)

#[global] Instance Function_laws : ChainLaws Function.
Proof. intros f k. apply arrow_function_setter. Qed.

Section ObjectMap.
Context {V W : Type} `{Chain V} `{Chain W} (g : V -> W).
Hypothesis g_chain : forall v k, chain_find (g v) k = chain_find v k.

Lemma chain_find_object_map (o : object V) (k : string) :
  chain_find (object_map g o) k = chain_find o k.
Proof.
  rewrite !chain_find_object. unfold object_map; simpl.
  rewrite lookup_fmap. destruct (own o !! k); simpl; [reflexivity |].
  destruct (proto o); simpl; [apply g_chain | reflexivity].
Qed.

Lemma object_set_map (k : string) (v : V) (o : object V) :
  object_set k (g v) (object_map g o)
  = match object_set k v o with
    | Normal o' => Normal (object_map g o')
    | Throw e => Throw e
    end.
Proof.
  unfold object_set. rewrite chain_find_object_map.
  destruct (chain_find o k); try reflexivity;
    unfold object_map; simpl; rewrite fmap_insert; reflexivity.
Qed.

End ObjectMap.

Lemma object_map_empty {V W : Type} (g : V -> W) :
  object_map g empty_object = empty_object.
Proof. unfold object_map, empty_object; simpl. rewrite fmap_empty. reflexivity. Qed.

Lemma closure_chain (f : Function) (k : string) :
  chain_find (closure f) k = chain_find f k.
Proof. reflexivity. Qed.

Lemma endpoints_loop_forget ns supported endpointNames iteration endPoints rm :
  endpoints_loop ns supported endpointNames (object_map closure endPoints) rm
  = match endpoints_loop_tracked ns supported endpointNames iteration endPoints rm with
    | (Normal o, rm') => (Normal (object_map closure o), rm')
    | (Throw e, rm') => (Throw e, rm')
    end.
Proof.
  revert iteration endPoints.
  induction endpointNames as [|x rest IH]; intros iteration endPoints; simpl;
    [reflexivity |].
  destruct (negb _); [apply IH |].
  unfold bind, lift.
  pose proof (object_set_map closure closure_chain x
                {| closure := {| rpcNamespace := ns; endpointName := x |};
                   created_at := iteration |} endPoints) as Hset.
  simpl in Hset. rewrite Hset.
  destruct (object_set x _ endPoints); [apply IH | reflexivity].
Qed.

Lemma namespaces_loop_forget rpcList supported objectKeys table rm :
  namespaces_loop rpcList supported objectKeys
    (object_map (object_map closure) table) rm
  = forget (namespaces_loop_tracked rpcList supported objectKeys table rm).
Proof.
  revert table rm.
  induction objectKeys as [|ns rest IH]; intros table rm; simpl;
    [reflexivity |].
  destruct (Record_get rpcList ns) as [eps|]; [| reflexivity].
  unfold bind at 1 3.
  pose proof (endpoints_loop_forget ns supported eps 0 empty_object rm) as Hinner.
  rewrite object_map_empty in Hinner. rewrite Hinner.
  destruct (endpoints_loop_tracked ns supported eps 0 empty_object rm)
    as [[i|err] rm1]; [| reflexivity].
  unfold bind, lift.
  rewrite (object_set_map (object_map closure)
             (chain_find_object_map closure closure_chain)).
  destruct (object_set ns i table); [apply IH | reflexivity].
Qed.

(** A write under a name that does not come again is not touched by the
    rest of the loop. *)
Lemma endpoints_loop_tracked_keeps ns supported endpointNames iteration endPoints rm endPoints' rm' e :
  endpoints_loop_tracked ns supported endpointNames iteration endPoints rm
  = (Normal endPoints', rm') ->
  e ∉ endpointNames -> stored endPoints' e = stored endPoints e.
Proof.
  revert iteration endPoints rm.
  induction endpointNames as [|x rest IH]; intros iteration endPoints rm; simpl.
  - intros [= <- <-]. reflexivity.
  - intros Hrun Hnot. apply not_elem_of_cons in Hnot as [Hne Hnot].
    destruct (includes supported (qualified ns x)); simpl in Hrun.
    + unfold bind, lift in Hrun.
      destruct (object_set x _ endPoints) as [o1|err] eqn:Hset; [| discriminate].
      rewrite (IH _ _ _ Hrun Hnot).
      eapply object_set_stored_ne; eassumption.
    + eapply IH; eassumption.
Qed.

(** What the loop leaves under a supported name is the function its last
    occurrence made. *)
Lemma endpoints_loop_tracked_last ns supported pre e post iteration endPoints rm endPoints' rm' :
  endpoints_loop_tracked ns supported (pre ++ e :: post) iteration endPoints rm
  = (Normal endPoints', rm') ->
  e ∉ post -> includes supported (qualified ns e) = true ->
  stored endPoints' e
  = Some {| closure := {| rpcNamespace := ns; endpointName := e |};
            created_at := iteration + length pre |}.
Proof.
  revert iteration endPoints rm.
  induction pre as [|x pre IH]; intros iteration endPoints rm; simpl.
  - intros Hrun Hnot Hsup. rewrite Hsup in Hrun. simpl in Hrun.
    unfold bind, lift in Hrun.
    destruct (object_set e _ endPoints) as [o1|err] eqn:Hset; [| discriminate].
    rewrite (endpoints_loop_tracked_keeps _ _ _ _ _ _ _ _ _ Hrun Hnot).
    rewrite Nat.add_0_r. eapply object_set_stored_eq; eassumption.
  - intros Hrun Hnot Hsup. rewrite Nat.add_succ_r, <- Nat.add_succ_l.
    destruct (includes supported (qualified ns x)); simpl in Hrun.
    + unfold bind, lift in Hrun.
      destruct (object_set x _ endPoints) as [o1|err]; [| discriminate].
      eapply IH; eassumption.
    + eapply IH; eassumption.
Qed.

(** What the outer loop leaves under a key was there before, or was built
    for it from its sequence, starting at iteration 0. *)
Lemma namespaces_loop_tracked_stored rpcList supported objectKeys table rm table' rm' :
  namespaces_loop_tracked rpcList supported objectKeys table rm
  = (Normal table', rm') ->
  forall N inner, stored table' N = Some inner ->
    stored table N = Some inner \/
    exists eps rm1 rm2,
      Record_get rpcList N = Some eps /\
      endpoints_loop_tracked N supported eps 0 empty_object rm1
      = (Normal inner, rm2).
Proof.
  revert table rm.
  induction objectKeys as [|ns rest IH]; intros table rm; simpl.
  - intros [= <- <-] N inner Hst. auto.
  - destruct (Record_get rpcList ns) as [eps|] eqn:Hget; [| discriminate].
    unfold bind at 1.
    destruct (endpoints_loop_tracked ns supported eps 0 empty_object rm)
      as [[i|err] rm1] eqn:Hinner; [| discriminate].
    unfold bind, lift.
    destruct (object_set ns i table) as [t1|err] eqn:Hset; [| discriminate].
    intros Hrun N inner Hst.
    destruct (IH _ _ Hrun N inner Hst) as [Hold | Hnew]; [| auto].
    destruct (decide (N = ns)) as [->|Hne].
    + rewrite (object_set_stored_eq _ _ _ _ Hset) in Hold.
      inversion Hold; subst. right. eauto.
    + rewrite (object_set_stored_ne _ _ _ _ _ Hset Hne) in Hold. auto.
Qed.

(** C6. The builder makes a function object at every supported occurrence
    of a name and assigns it under that name, so that a repeated name is
    overwritten and the last write wins: leaving the iterations out, the
    builder over function objects is the builder; in the table it
    returns, the function under a name is the one made at the last
    occurrence of the name in the namespace's sequence; and the builder's
    outcome is its outcome on the catalog with the repeated names of a
    namespace's sequence removed. *)
Theorem C6_duplicates_redundant rpcList supported N rm :
  createRpcMethods rpcList supported rm
  = forget (createRpcMethods_tracked rpcList supported rm) /\
  (forall table rm' ns pre e post,
     createRpcMethods_tracked rpcList supported rm = (Normal table, rm') ->
     Record_get rpcList ns = Some (pre ++ e :: post) -> e ∉ post ->
     ns +:+ "_" +:+ e ∈ supported ->
     ns <> "__proto__" -> e <> "__proto__" ->
     exists inner,
       own table !! ns = Some inner /\
       own inner !! e
       = Some {| closure := {| rpcNamespace := ns; endpointName := e |};
                 created_at := length pre |}) /\
  createRpcMethods rpcList supported rm
  = createRpcMethods (without_duplicates_in N rpcList) supported rm.
Proof.
  assert (createRpcMethods rpcList supported rm
          = forget (createRpcMethods_tracked rpcList supported rm)) as Hforget.
  { unfold createRpcMethods, createRpcMethods_tracked.
    rewrite <- namespaces_loop_forget.
    rewrite !object_map_empty. reflexivity. }
  split; [exact Hforget | split].
  - intros table rm' ns pre e post Hrun Hget Hnot Hsup Hns Hne.
    rewrite Hrun in Hforget. simpl in Hforget.
    assert (ns ∈ Object_keys rpcList) as Hin.
    { apply Record_get_Some in Hget. unfold Object_keys.
      apply list_elem_of_fmap. exists (ns, pre ++ e :: post). auto. }
    destruct (namespaces_loop_present _ _ _ _ _ _ _ ns Hforget Hin Hns)
      as (inner0 & Hown0 & _).
    simpl in Hown0. rewrite lookup_fmap in Hown0.
    destruct (own table !! ns) as [inner|] eqn:Hown; [| discriminate].
    exists inner. split; [reflexivity |].
    apply stored_own in Hown.
    destruct (namespaces_loop_tracked_stored _ _ _ _ _ _ _ Hrun ns inner Hown)
      as [Hold | (eps & rm1 & rm2 & Hget' & Hinner)].
    { rewrite stored_empty in Hold. discriminate. }
    rewrite Hget in Hget'. inversion Hget'; subst eps.
    rewrite <- stored_ne_proto by assumption.
    apply includes_true in Hsup.
    apply (endpoints_loop_tracked_last _ _ _ _ _ _ _ _ _ _ Hinner Hnot Hsup).
  - unfold createRpcMethods. rewrite Object_keys_without_duplicates.
    symmetry. apply namespaces_loop_dedup.
Qed.

(** ** The login check *)

(** C4, as amended. Where the page can read [localStorage] and the storage
    key is not a name [localStorage] inherits, [isLoggedIn] raises nothing:
    it returns true exactly when the item stored under the key is the
    account's address, and false when nothing is stored under it. *)
Theorem C4_isLoggedIn ACCOUNT items account :
  Inscribe.Storage_inherits ACCOUNT = false ->
  (Inscribe.isLoggedIn ACCOUNT (Inscribe.Readable items) account
   = Inscribe.Returned true <->
   items !! ACCOUNT = Some (Inscribe.address account)) /\
  (items !! ACCOUNT = None ->
   Inscribe.isLoggedIn ACCOUNT (Inscribe.Readable items) account
   = Inscribe.Returned false) /\
  (exists b, Inscribe.isLoggedIn ACCOUNT (Inscribe.Readable items) account
             = Inscribe.Returned b).
Proof.
  intros Hkey. unfold Inscribe.isLoggedIn, Inscribe.Storage_get.
  rewrite Hkey. destruct (items !! ACCOUNT) as [item|]; simpl.
  - split; [| split; [discriminate | eauto]].
    split.
    + intros [= Heq]. apply String.eqb_eq in Heq. congruence.
    + intros [= ->]. rewrite String.eqb_refl. reflexivity.
  - split; [| split; [reflexivity | eauto]]. split; discriminate.
Qed.

(** ** Scenarios *)

(** Catalog [{ chain: ["getBlock", "getBlockHash"] }], supported
    [{ "chain_getBlock" }]: the table is [{ chain: { getBlock } }]. *)
Example scenario_getBlock (rm : RequestManager) :
  createRpcMethods chain_catalog chain_supported rm = (Normal chain_table, rm).
Proof. reflexivity. Qed.

(** Catalog [{ chain: [] }], nothing supported: the table is
    [{ chain: {} }]. *)
Example scenario_empty_namespace (rm : RequestManager) :
  createRpcMethods [("chain", [])] [] rm
  = (Normal (Object {["chain" := empty_object]} None), rm).
Proof. reflexivity. Qed.

(** A name that occurs twice is written twice, to the same effect. *)
Example scenario_repeated_name (rm : RequestManager) :
  createRpcMethods [("chain", ["getBlock"; "getBlockHash"; "getBlock"])]
    chain_supported rm
  = (Normal chain_table, rm) /\
  without_duplicates_in "chain"
    [("chain", ["getBlock"; "getBlockHash"; "getBlock"])]
  = chain_catalog.
Proof. split; reflexivity. Qed.

(** A namespace called [__proto__] becomes the table's prototype and no
    key of the table. *)
Example scenario_proto_namespace (rm : RequestManager) :
  createRpcMethods [("__proto__", [])] [] rm
  = (Normal (Object ∅ (Some empty_object)), rm).
Proof. reflexivity. Qed.

(** A supported endpoint called [__proto__] makes its caller the prototype
    of the namespace's object; the assignment of [name] that follows finds
    the function's [name], which is not writable, and throws. *)
Example scenario_proto_endpoint (rm : RequestManager) :
  createRpcMethods [("chain", ["__proto__"; "name"])]
    ["chain___proto__"; "chain_name"] rm
  = (Throw TypeError, rm).
Proof. reflexivity. Qed.

(** A name that occurs at iterations 0 and 2: the function left under it
    is the one made at iteration 2. *)
Example scenario_last_write (rm : RequestManager) :
  createRpcMethods_tracked
    [("chain", ["getBlock"; "getBlockHash"; "getBlock"])] chain_supported rm
  = (Normal
       (Object
          {["chain" :=
              Object
                {["getBlock" := {| closure := chain_getBlock; created_at := 2 |}]}
                None]}
          None), rm).
Proof. reflexivity. Qed.

(** The first scenario satisfies the premise of C1. *)
Lemma C1_witness :
  createRpcMethods chain_catalog chain_supported idle
  = (Normal chain_table, idle) /\
  (forall N inner e f,
     own chain_table !! N = Some inner -> own inner !! e = Some f ->
     (exists eps, Record_get chain_catalog N = Some eps /\ e ∈ eps) /\
     N +:+ "_" +:+ e ∈ chain_supported /\
     forall argv, method (request_of f argv) = N +:+ "_" +:+ e) /\
  (forall f argv,
     produced chain_table f -> method (request_of f argv) ∈ chain_supported) /\
  (forall N inner e,
     own chain_table !! N = Some inner -> N +:+ "_" +:+ e ∉ chain_supported ->
     own inner !! e = None).
Proof.
  split; [reflexivity |].
  exact (C1_entries_justified chain_catalog chain_supported idle chain_table
           idle eq_refl).
Defined.


(** C3 without the exception of [__proto__] fails: on the catalog whose
    one key is [__proto__] the builder returns a table without that key. *)
Lemma C3_counterexample :
  ~ (forall rpcList supported rm table rm' N,
       createRpcMethods rpcList supported rm = (Normal table, rm') ->
       N ∈ Object_keys rpcList -> is_Some (own table !! N)).
Proof.
  intros Hclaim.
  destruct (Hclaim [("__proto__", [])] [] idle
              (Object ∅ (Some empty_object)) idle "__proto__" eq_refl)
    as [inner Hinner].
  - left.
  - vm_compute in Hinner. discriminate Hinner.
Qed.

(** The scenario of the empty namespace satisfies the premises of C3. *)
Lemma C3_witness :
  createRpcMethods [("chain", [])] [] idle
  = (Normal (Object {["chain" := empty_object]} None), idle) /\
  "chain" ∈ Object_keys [("chain", @nil string)] /\
  "chain" <> "__proto__" /\
  is_Some (own (Object {["chain" := @empty_object RpcCaller]} None) !! "chain") /\
  ((forall eps e, Record_get [("chain", [])] "chain" = Some eps -> e ∈ eps ->
      "chain" +:+ "_" +:+ e ∉ @nil string) ->
   own (Object {["chain" := @empty_object RpcCaller]} None) !! "chain"
   = Some empty_object).
Proof.
  assert ("chain" ∈ Object_keys [("chain", @nil string)]) as Hin by left.
  assert ("chain" <> "__proto__") as Hne by discriminate.
  split; [reflexivity |]. split; [exact Hin |]. split; [exact Hne |].
  exact (C3_namespaces_present [("chain", [])] [] idle
           (Object {["chain" := empty_object]} None) idle "chain"
           eq_refl Hin Hne).
Defined.

(** The first scenario, built twice. *)
Lemma C5_witness :
  createRpcMethods chain_catalog chain_supported idle
  = (Normal chain_table, idle) /\
  exists second,
    build_twice chain_catalog chain_supported idle
    = (Normal (chain_table, second), idle) /\
    same_tables chain_table second.
Proof.
  split; [reflexivity |].
  exact (C5_build_twice chain_catalog chain_supported idle chain_table idle
           eq_refl).
Defined.

(** C7 without its premise fails: a catalog of strings and a list of
    strings on which the builder throws. *)
Lemma C7_counterexample :
  ~ (forall rpcList supported rm,
       exists table rm', createRpcMethods rpcList supported rm
                         = (Normal table, rm')).
Proof.
  intros Hclaim.
  destruct (Hclaim [("chain", ["__proto__"; "name"])]
              ["chain___proto__"; "chain_name"] idle) as (table & rm' & Hrun).
  discriminate Hrun.
Qed.

(** The first scenario has no endpoint called [__proto__]. *)
Lemma C7_witness :
  (forall N eps, (N, eps) ∈ chain_catalog -> "__proto__" ∈ eps ->
     N +:+ "_" +:+ "__proto__" ∉ chain_supported) /\
  exists table,
    createRpcMethods chain_catalog chain_supported idle = (Normal table, idle).
Proof.
  assert (forall N eps, (N, eps) ∈ chain_catalog -> "__proto__" ∈ eps ->
            N +:+ "_" +:+ "__proto__" ∉ chain_supported) as Hno.
  { intros N eps Hin Hp. apply list_elem_of_singleton in Hin.
    injection Hin as -> ->. exfalso. revert Hp.
    rewrite !elem_of_cons, elem_of_nil. intros [Hp | [Hp | []]]; discriminate Hp. }
  split; [exact Hno |].
  exact (C7_builder_returns chain_catalog chain_supported idle Hno).
Defined.

(** Two supported lists with the same two members. *)
Lemma C10_witness :
  (forall x, x ∈ ["chain_getBlock"; "state_call"; "chain_getBlock"] <->
             x ∈ ["state_call"; "chain_getBlock"]) /\
  createRpcMethods chain_catalog
    ["chain_getBlock"; "state_call"; "chain_getBlock"] idle
  = createRpcMethods chain_catalog ["state_call"; "chain_getBlock"] idle /\
  forall t1 t2 rm1 rm2,
    createRpcMethods chain_catalog
      ["chain_getBlock"; "state_call"; "chain_getBlock"] idle
    = (Normal t1, rm1) ->
    createRpcMethods chain_catalog ["state_call"; "chain_getBlock"] idle
    = (Normal t2, rm2) ->
    same_tables t1 t2.
Proof.
  assert (forall x, x ∈ ["chain_getBlock"; "state_call"; "chain_getBlock"] <->
                    x ∈ ["state_call"; "chain_getBlock"]) as Hmem.
  { intros x. rewrite !elem_of_cons. tauto. }
  split; [exact Hmem |].
  exact (C10_membership_only chain_catalog _ _ idle Hmem).
Defined.

(** C4 without its two premises fails: where the page is denied storage
    the check throws, whatever is stored; and under the key ["getItem"]
    the read gives the method, so the check is false although the item
    stored is the address. *)
Lemma C4_counterexample :
  ~ (forall ACCOUNT window account,
       exists b, Inscribe.isLoggedIn ACCOUNT window account
                 = Inscribe.Returned b) /\
  ~ (forall ACCOUNT items account,
       Inscribe.isLoggedIn ACCOUNT (Inscribe.Readable items) account
       = Inscribe.Returned true <->
       items !! ACCOUNT = Some (Inscribe.address account)).
Proof.
  split.
  - intros Hclaim.
    destruct (Hclaim "account" (Inscribe.Denied {["account" := "0xABC"]})
                {| Inscribe.address := "0xABC";
                   Inscribe.meta_source := "polkadot-js" |}) as [b Hb].
    discriminate Hb.
  - intros Hclaim.
    destruct (Hclaim "getItem" {["getItem" := "0xABC"]}
                {| Inscribe.address := "0xABC";
                   Inscribe.meta_source := "polkadot-js" |}) as [_ Hback].
    specialize (Hback eq_refl). discriminate Hback.
Qed.

(** The key ["account"] is not an inherited name. *)
Lemma C4_witness :
  Inscribe.Storage_inherits "account" = false /\
  (Inscribe.isLoggedIn "account" (Inscribe.Readable {["account" := "0xABC"]})
     {| Inscribe.address := "0xABC"; Inscribe.meta_source := "polkadot-js" |}
   = Inscribe.Returned true <->
   ({["account" := "0xABC"]} : gmap string string) !! "account" = Some "0xABC") /\
  (({["account" := "0xABC"]} : gmap string string) !! "account" = None ->
   Inscribe.isLoggedIn "account" (Inscribe.Readable {["account" := "0xABC"]})
     {| Inscribe.address := "0xABC"; Inscribe.meta_source := "polkadot-js" |}
   = Inscribe.Returned false) /\
  (exists b,
     Inscribe.isLoggedIn "account" (Inscribe.Readable {["account" := "0xABC"]})
       {| Inscribe.address := "0xABC"; Inscribe.meta_source := "polkadot-js" |}
     = Inscribe.Returned b).
Proof.
  split; [reflexivity |].
  exact (C4_isLoggedIn "account" {["account" := "0xABC"]}
           {| Inscribe.address := "0xABC"; Inscribe.meta_source := "polkadot-js" |}
           eq_refl).
Defined.

(** The login scenario: the address stored, another address, nothing
    stored; and a page that is denied storage. *)
Example scenario_login :
  Inscribe.isLoggedIn "account" (Inscribe.Readable {["account" := "0xABC"]})
    {| Inscribe.address := "0xABC"; Inscribe.meta_source := "polkadot-js" |}
  = Inscribe.Returned true /\
  Inscribe.isLoggedIn "account" (Inscribe.Readable {["account" := "0xABC"]})
    {| Inscribe.address := "0xDEF"; Inscribe.meta_source := "polkadot-js" |}
  = Inscribe.Returned false /\
  Inscribe.isLoggedIn "account" (Inscribe.Readable ∅)
    {| Inscribe.address := "0xABC"; Inscribe.meta_source := "polkadot-js" |}
  = Inscribe.Returned false /\
  Inscribe.isLoggedIn "account" (Inscribe.Denied {["account" := "0xABC"]})
    {| Inscribe.address := "0xABC"; Inscribe.meta_source := "polkadot-js" |}
  = Inscribe.Raised Inscribe.SecurityError.
Proof. repeat split. Qed.

(** * Further properties of the builder *)

(** ** No own property is called [__proto__] *)

Lemma clean_empty {V : Type} : clean (@empty_object V).
Proof. unfold clean, empty_object; simpl. apply lookup_empty. Qed.

Lemma stored_clean_proto {V : Type} (o : object V) :
  clean o -> stored o "__proto__" = proto o.
Proof. unfold clean, stored. intros ->. reflexivity. Qed.

Lemma clean_stored_own {V : Type} (o : object V) (k : string) (v : V) :
  clean o -> own o !! k = Some v -> k <> "__proto__".
Proof. unfold clean. intros Hc Hown ->. congruence. Qed.

(** Two clean objects that hold the same under every key are equal. *)
Lemma stored_ext {V : Type} (o1 o2 : object V) :
  clean o1 -> clean o2 -> (forall k, stored o1 k = stored o2 k) -> o1 = o2.
Proof.
  intros Hc1 Hc2 Hst.
  assert (proto o1 = proto o2) as Hp.
  { rewrite <- (stored_clean_proto o1), <- (stored_clean_proto o2); auto. }
  assert (own o1 = own o2) as Ho.
  { apply map_eq. intros k. destruct (decide (k = "__proto__")) as [->|Hne].
    - unfold clean in *. congruence.
    - specialize (Hst k). unfold stored in Hst.
      destruct (String.eqb_spec k "__proto__"); [contradiction |].
      destruct (own o1 !! k), (own o2 !! k); congruence. }
  destruct o1, o2; simpl in *. congruence.
Qed.

Lemma object_set_clean_inner (k : string) (f : RpcCaller) (o o' : EndPoints) :
  clean o -> object_set k f o = Normal o' -> clean o'.
Proof.
  unfold clean. intros Hc Hset. destruct (decide (k = "__proto__")) as [->|Hne].
  - unfold object_set in Hset. rewrite chain_find_object, Hc in Hset.
    destruct (proto o); simpl in Hset; inversion Hset; subst; exact Hc.
  - rewrite (object_set_own_ne _ _ _ _ _ Hset); [exact Hc | congruence].
Qed.

Lemma endpoints_loop_clean ns supported endpointNames endPoints rm endPoints' rm' :
  endpoints_loop ns supported endpointNames endPoints rm = (Normal endPoints', rm') ->
  clean endPoints -> clean endPoints'.
Proof.
  revert endPoints rm.
  induction endpointNames as [|x rest IH]; intros endPoints rm; simpl.
  - intros [= <- <-]. auto.
  - destruct (includes supported (qualified ns x)); simpl; [| apply IH].
    unfold bind, lift.
    destruct (object_set x _ endPoints) as [o1|err] eqn:Hset; [| discriminate].
    intros Hrun Hc. apply (IH _ _ Hrun).
    eapply object_set_clean_inner; eassumption.
Qed.

Lemma built_clean rpcList supported N inner :
  built rpcList supported N inner -> clean inner.
Proof.
  intros (eps & _ & Hinner).
  eapply endpoints_loop_clean; [apply (Hinner idle) | apply clean_empty].
Qed.

Lemma object_set_clean_outer (k : string) (E : EndPoints) (t t' : RpcMethods) :
  clean_table t -> clean E -> object_set k E t = Normal t' -> clean_table t'.
Proof.
  intros [Hc Hp] HE Hset. destruct (decide (k = "__proto__")) as [->|Hne].
  - unfold object_set in Hset. rewrite chain_find_object, Hc in Hset.
    assert (above (proto t) "__proto__" = SetterProto) as Habove.
    { destruct (proto t) as [E0|] eqn:HE0; simpl; [| reflexivity].
      rewrite chain_find_object. specialize (Hp E0 eq_refl).
      unfold clean in Hp. rewrite Hp. destruct (proto E0); reflexivity. }
    rewrite Habove in Hset. inversion Hset; subst. split; [exact Hc |].
    simpl. intros E0 [= <-]. exact HE.
  - split.
    + unfold clean. rewrite (object_set_own_ne _ _ _ _ _ Hset); [exact Hc | congruence].
    + unfold object_set in Hset.
      destruct (chain_find t k) eqn:Hf; inversion Hset; subst; simpl; try exact Hp.
      apply (setter_proto_key (V := RpcMethods)) in Hf. contradiction.
Qed.

Lemma namespaces_loop_clean rpcList supported objectKeys table rm table' rm' :
  namespaces_loop rpcList supported objectKeys table rm = (Normal table', rm') ->
  clean_table table -> clean_table table'.
Proof.
  revert table rm.
  induction objectKeys as [|ns rest IH]; intros table rm; simpl.
  - intros [= <- <-]. auto.
  - destruct (Record_get rpcList ns) as [eps|] eqn:Hget; [| discriminate].
    unfold bind at 1.
    destruct (endpoints_loop ns supported eps empty_object rm)
      as [[i|err] rm1] eqn:Hinner; [| discriminate].
    unfold bind, lift.
    destruct (object_set ns i table) as [t1|err] eqn:Hset; [| discriminate].
    intros Hrun Hc. apply (IH _ _ Hrun).
    eapply object_set_clean_outer; [exact Hc | | exact Hset].
    eapply endpoints_loop_clean; [exact Hinner | apply clean_empty].
Qed.

Lemma createRpcMethods_clean rpcList supported rm table rm' :
  createRpcMethods rpcList supported rm = (Normal table, rm') ->
  clean_table table.
Proof.
  intros Hrun. eapply namespaces_loop_clean; [exact Hrun |].
  split; [apply clean_empty | discriminate].
Qed.

(** ** What the loops leave, exactly *)

Lemma endpoints_loop_exact ns supported endpointNames rm endPoints rm' e f :
  endpoints_loop ns supported endpointNames empty_object rm = (Normal endPoints, rm') ->
  stored endPoints e = Some f <->
  e ∈ endpointNames /\ includes supported (qualified ns e) = true /\
  f = {| rpcNamespace := ns; endpointName := e |}.
Proof.
  intros Hrun. split.
  - intros Hst.
    destruct (endpoints_loop_stored _ _ _ _ _ _ _ Hrun e f Hst) as [Hold | H];
      [| exact H].
    rewrite stored_empty in Hold. discriminate.
  - intros (Hin & Hsup & ->). eapply endpoints_loop_present; eassumption.
Qed.

(** What is in place for a key and is what the catalog builds for it stays
    in place. *)
Lemma namespaces_loop_stored_keeps rpcList supported objectKeys table rm table' rm' N inner :
  namespaces_loop rpcList supported objectKeys table rm = (Normal table', rm') ->
  stored table N = Some inner -> built rpcList supported N inner ->
  stored table' N = Some inner.
Proof.
  revert table rm.
  induction objectKeys as [|ns rest IH]; intros table rm; simpl.
  - intros [= <- <-]. auto.
  - destruct (Record_get rpcList ns) as [eps|] eqn:Hget; [| discriminate].
    unfold bind at 1.
    destruct (endpoints_loop ns supported eps empty_object rm)
      as [[i|err] rm1] eqn:Hinner; [| discriminate].
    destruct (silent_inv _ _ _ _ (endpoints_loop_silent _ _ _ _) Hinner)
      as [-> Hall].
    unfold bind, lift.
    destruct (object_set ns i table) as [t1|err] eqn:Hset; [| discriminate].
    intros Hrun Hst Hb. apply (IH _ _ Hrun); [| assumption].
    destruct (decide (N = ns)) as [->|Hne].
    + assert (i = inner) as ->.
      { eapply built_unique; [| exact Hb]. exists eps. auto. }
      eapply object_set_stored_eq; eassumption.
    + rewrite (object_set_stored_ne _ _ _ _ _ Hset Hne). assumption.
Qed.

Lemma namespaces_loop_stored_present rpcList supported objectKeys table rm table' rm' N :
  namespaces_loop rpcList supported objectKeys table rm = (Normal table', rm') ->
  N ∈ objectKeys ->
  exists inner, stored table' N = Some inner /\ built rpcList supported N inner.
Proof.
  revert table rm.
  induction objectKeys as [|ns rest IH]; intros table rm; simpl.
  - intros _ Hin. inversion Hin.
  - destruct (Record_get rpcList ns) as [eps|] eqn:Hget; [| discriminate].
    unfold bind at 1.
    destruct (endpoints_loop ns supported eps empty_object rm)
      as [[i|err] rm1] eqn:Hinner; [| discriminate].
    destruct (silent_inv _ _ _ _ (endpoints_loop_silent _ _ _ _) Hinner)
      as [-> Hall].
    unfold bind, lift.
    destruct (object_set ns i table) as [t1|err] eqn:Hset; [| discriminate].
    intros Hrun Hin.
    destruct (decide (N = ns)) as [->|Hne].
    + exists i. assert (built rpcList supported ns i) as Hb by (exists eps; auto).
      split; [| assumption].
      eapply namespaces_loop_stored_keeps; [exact Hrun | | exact Hb].
      eapply object_set_stored_eq; eassumption.
    + apply (IH _ _ Hrun). inversion Hin; subst; [congruence | assumption].
Qed.

Lemma createRpcMethods_exact rpcList supported rm table rm' N inner :
  createRpcMethods rpcList supported rm = (Normal table, rm') ->
  stored table N = Some inner <->
  N ∈ Object_keys rpcList /\ built rpcList supported N inner.
Proof.
  intros Hrun. split.
  - intros Hst.
    destruct (namespaces_loop_stored _ _ _ _ _ _ _ Hrun N inner Hst) as [Hold | H];
      [| exact H].
    rewrite stored_empty in Hold. discriminate.
  - intros [Hin Hb].
    destruct (namespaces_loop_stored_present _ _ _ _ _ _ _ N Hrun Hin)
      as (inner' & Hst & Hb').
    rewrite (built_unique _ _ _ _ _ Hb Hb'). exact Hst.
Qed.

(** ** Entries, keys and prototypes of the table *)

(** X1. A supported endpoint of the catalog has its entry: when the
    builder returns, it holds under the namespace and the endpoint name,
    neither being [__proto__], the caller that closes over the two. *)
Theorem X1_supported_endpoint_has_entry rpcList supported rm table rm' N eps e :
  createRpcMethods rpcList supported rm = (Normal table, rm') ->
  Record_get rpcList N = Some eps -> e ∈ eps ->
  N +:+ "_" +:+ e ∈ supported ->
  N <> "__proto__" -> e <> "__proto__" ->
  exists inner,
    own table !! N = Some inner /\
    own inner !! e = Some {| rpcNamespace := N; endpointName := e |}.
Proof. apply createRpcMethods_entry. Qed.

Lemma createRpcMethods_own_built rpcList supported rm table rm' N inner :
  createRpcMethods rpcList supported rm = (Normal table, rm') ->
  own table !! N = Some inner ->
  N ∈ Object_keys rpcList /\ N <> "__proto__" /\ built rpcList supported N inner.
Proof.
  intros Hrun Hown.
  destruct (createRpcMethods_clean _ _ _ _ _ Hrun) as [Hc _].
  apply stored_own in Hown as Hst.
  apply (createRpcMethods_exact _ _ _ _ _ N inner Hrun) in Hst as [Hin Hb].
  split; [assumption |]. split; [| assumption].
  eapply clean_stored_own; eassumption.
Qed.

Lemma built_own rpcList supported N inner eps e :
  built rpcList supported N inner -> Record_get rpcList N = Some eps ->
  is_Some (own inner !! e) <->
  e ∈ eps /\ qualified N e ∈ supported /\ e <> "__proto__".
Proof.
  intros Hb Hget. pose proof (built_clean _ _ _ _ Hb) as Hc.
  destruct Hb as (eps' & Hget' & Hinner).
  rewrite Hget in Hget'. inversion Hget'; subst eps'. split.
  - intros [f Hf]. pose proof (clean_stored_own _ _ _ Hc Hf) as Hne.
    apply stored_own in Hf.
    apply (endpoints_loop_exact _ _ _ _ _ _ e f (Hinner idle)) in Hf
      as (Hin & Hsup & _).
    apply includes_true in Hsup. auto.
  - intros (Hin & Hsup & Hne). exists {| rpcNamespace := N; endpointName := e |}.
    rewrite <- stored_ne_proto by assumption.
    apply (endpoints_loop_exact _ _ _ _ _ _ e _ (Hinner idle)).
    apply includes_true in Hsup. auto.
Qed.

(** X2. The keys of the returned table are exactly the keys of the catalog
    other than [__proto__]; the keys under a namespace are exactly the
    names of its sequence whose identifier is supported, other than
    [__proto__]. *)
Theorem X2_exact_keys rpcList supported rm table rm' :
  createRpcMethods rpcList supported rm = (Normal table, rm') ->
  (forall N, is_Some (own table !! N) <->
             N ∈ Object_keys rpcList /\ N <> "__proto__") /\
  (forall N inner eps e,
     own table !! N = Some inner -> Record_get rpcList N = Some eps ->
     (is_Some (own inner !! e) <->
      e ∈ eps /\ N +:+ "_" +:+ e ∈ supported /\ e <> "__proto__")).
Proof.
  intros Hrun. split.
  - intros N. split.
    + intros [inner Hown].
      destruct (createRpcMethods_own_built _ _ _ _ _ _ _ Hrun Hown)
        as (Hin & Hne & _). auto.
    + intros [Hin Hne].
      destruct (namespaces_loop_present _ _ _ _ _ _ _ N Hrun Hin Hne)
        as (inner & Hown & _). eauto.
  - intros N inner eps e Hown Hget.
    destruct (createRpcMethods_own_built _ _ _ _ _ _ _ Hrun Hown)
      as (_ & _ & Hb).
    apply (built_own _ _ _ _ _ e Hb Hget).
Qed.

(** X3. The builder leaves the prototypes alone unless [__proto__] is
    named: a catalog without the key [__proto__] gives a table with the
    initial prototype, and a namespace without a supported endpoint
    [__proto__] gets an object with the initial prototype. No own
    property of the table or of a namespace's object is called
    [__proto__]. *)
Theorem X3_prototypes_untouched rpcList supported rm table rm' :
  createRpcMethods rpcList supported rm = (Normal table, rm') ->
  ("__proto__" ∉ Object_keys rpcList -> proto table = None) /\
  (forall N inner eps,
     own table !! N = Some inner -> Record_get rpcList N = Some eps ->
     ("__proto__" ∈ eps -> N +:+ "_" +:+ "__proto__" ∉ supported) ->
     proto inner = None) /\
  own table !! "__proto__" = None /\
  (forall N inner, own table !! N = Some inner -> own inner !! "__proto__" = None).
Proof.
  intros Hrun. destruct (createRpcMethods_clean _ _ _ _ _ Hrun) as [Hc _].
  repeat split.
  - intros Hnot. rewrite <- (stored_clean_proto table Hc).
    destruct (stored table "__proto__") as [inner|] eqn:Hst; [| reflexivity].
    apply (createRpcMethods_exact _ _ _ _ _ _ _ Hrun) in Hst as [Hin _].
    contradiction.
  - intros N inner eps Hown Hget Hno.
    destruct (createRpcMethods_own_built _ _ _ _ _ _ _ Hrun Hown)
      as (_ & _ & Hb).
    pose proof (built_clean _ _ _ _ Hb) as Hci.
    destruct Hb as (eps' & Hget' & Hinner).
    rewrite Hget in Hget'. inversion Hget'; subst eps'.
    rewrite <- (stored_clean_proto inner Hci).
    destruct (stored inner "__proto__") as [f|] eqn:Hst; [| reflexivity].
    apply (endpoints_loop_exact _ _ _ _ _ _ _ _ (Hinner idle)) in Hst
      as (Hin & Hsup & _).
    apply includes_true in Hsup. exfalso. exact (Hno Hin Hsup).
  - exact Hc.
  - intros N inner Hown.
    destruct (createRpcMethods_own_built _ _ _ _ _ _ _ Hrun Hown)
      as (_ & _ & Hb).
    exact (built_clean _ _ _ _ Hb).
Qed.

(** X4. Where [__proto__] is named it becomes a prototype: the object
    built for a namespace [__proto__] is the prototype of the table, with
    the supported names of its sequence as keys; the caller of a
    supported endpoint [__proto__] is the prototype of its namespace's
    object. *)
Theorem X4_proto_becomes_prototype rpcList supported rm table rm' :
  createRpcMethods rpcList supported rm = (Normal table, rm') ->
  (forall eps, Record_get rpcList "__proto__" = Some eps ->
     exists inner, proto table = Some inner /\
       forall e, is_Some (own inner !! e) <->
                 e ∈ eps /\ "__proto__" +:+ "_" +:+ e ∈ supported /\
                 e <> "__proto__") /\
  (forall N inner eps,
     own table !! N = Some inner -> Record_get rpcList N = Some eps ->
     "__proto__" ∈ eps -> N +:+ "_" +:+ "__proto__" ∈ supported ->
     proto inner
     = Some {| rpcNamespace := N; endpointName := "__proto__" |}).
Proof.
  intros Hrun. destruct (createRpcMethods_clean _ _ _ _ _ Hrun) as [Hc _].
  split.
  - intros eps Hget.
    assert ("__proto__" ∈ Object_keys rpcList) as Hin.
    { apply Record_get_Some in Hget. unfold Object_keys.
      apply list_elem_of_fmap. exists ("__proto__", eps). auto. }
    destruct (namespaces_loop_stored_present _ _ _ _ _ _ _ _ Hrun Hin)
      as (inner & Hst & Hb).
    exists inner. split; [rewrite <- (stored_clean_proto table Hc); exact Hst |].
    intros e. apply (built_own _ _ _ _ _ e Hb Hget).
  - intros N inner eps Hown Hget Hin Hsup.
    destruct (createRpcMethods_own_built _ _ _ _ _ _ _ Hrun Hown)
      as (_ & _ & Hb).
    pose proof (built_clean _ _ _ _ Hb) as Hci.
    destruct Hb as (eps' & Hget' & Hinner).
    rewrite Hget in Hget'. inversion Hget'; subst eps'.
    rewrite <- (stored_clean_proto inner Hci).
    apply (endpoints_loop_exact _ _ _ _ _ _ _ _ (Hinner idle)).
    apply includes_true in Hsup. auto.
Qed.

(** ** What the table depends on *)

Lemma Record_get_None {T : Type} (r : list (string * T)) (k : string) :
  Record_get r k = None <-> k ∉ Object_keys r.
Proof.
  unfold Object_keys. induction r as [|[k' t] r IH]; simpl.
  - split; [intros _ H; inversion H | reflexivity].
  - rewrite not_elem_of_cons. destruct (String.eqb_spec k' k) as [->|Hne].
    + split; [discriminate | intros [H _]; congruence].
    + rewrite IH. split; [intros H; split; [congruence | exact H] | tauto].
Qed.

Lemma Record_get_NoDup {T : Type} (r : list (string * T)) (k : string) (t : T) :
  NoDup (Object_keys r) -> (k, t) ∈ r -> Record_get r k = Some t.
Proof.
  unfold Object_keys. induction r as [|[k' t'] r IH]; simpl.
  - intros _ H. inversion H.
  - intros Hnd Hin. apply NoDup_cons in Hnd as [Hk' Hnd].
    apply elem_of_cons in Hin as [[= <- <-] | Hin].
    + rewrite String.eqb_refl. reflexivity.
    + destruct (String.eqb_spec k' k) as [->|Hne]; [| auto].
      exfalso. apply Hk'. apply list_elem_of_fmap. exists (k, t). auto.
Qed.

Lemma Record_get_Permutation {T : Type} (r1 r2 : list (string * T)) (k : string) :
  r1 ≡ₚ r2 -> NoDup (Object_keys r1) -> Record_get r1 k = Record_get r2 k.
Proof.
  intros Hperm Hnd.
  assert (NoDup (Object_keys r2)) as Hnd2.
  { unfold Object_keys in *. rewrite <- Hperm. exact Hnd. }
  destruct (Record_get r1 k) as [t|] eqn:H1.
  - symmetry. apply Record_get_NoDup; [exact Hnd2 |].
    rewrite <- Hperm. apply Record_get_Some. exact H1.
  - symmetry. apply Record_get_None. apply Record_get_None in H1.
    unfold Object_keys in *. rewrite <- Hperm. exact H1.
Qed.

(** Two returned tables are equal when their catalogs have the same keys
    and build the same object for each of them. *)
Lemma createRpcMethods_agree r1 s1 r2 s2 rm t1 t2 rm1 rm2 :
  createRpcMethods r1 s1 rm = (Normal t1, rm1) ->
  createRpcMethods r2 s2 rm = (Normal t2, rm2) ->
  (forall N, N ∈ Object_keys r1 <-> N ∈ Object_keys r2) ->
  (forall N i1 i2, built r1 s1 N i1 -> built r2 s2 N i2 -> i1 = i2) ->
  t1 = t2.
Proof.
  intros H1 H2 Hkeys Hbuilt.
  destruct (createRpcMethods_clean _ _ _ _ _ H1) as [Hc1 _].
  destruct (createRpcMethods_clean _ _ _ _ _ H2) as [Hc2 _].
  apply stored_ext; [assumption | assumption |]. intros k.
  destruct (stored t1 k) as [i1|] eqn:Hs1.
  - apply (createRpcMethods_exact _ _ _ _ _ _ _ H1) in Hs1 as [Hin Hb1].
    apply Hkeys in Hin.
    destruct (namespaces_loop_stored_present _ _ _ _ _ _ _ _ H2 Hin)
      as (i2 & Hs2 & Hb2).
    rewrite Hs2. f_equal. eapply Hbuilt; eassumption.
  - destruct (stored t2 k) as [i2|] eqn:Hs2; [| reflexivity].
    apply (createRpcMethods_exact _ _ _ _ _ _ _ H2) in Hs2 as [Hin Hb2].
    apply Hkeys in Hin.
    destruct (namespaces_loop_stored_present _ _ _ _ _ _ _ _ H1 Hin)
      as (i1 & Hs1' & _).
    congruence.
Qed.

Lemma createRpcMethods_Permutation r1 r2 supported rm t1 t2 rm1 rm2 :
  r1 ≡ₚ r2 -> NoDup (Object_keys r1) ->
  createRpcMethods r1 supported rm = (Normal t1, rm1) ->
  createRpcMethods r2 supported rm = (Normal t2, rm2) ->
  t1 = t2.
Proof.
  intros Hperm Hnd H1 H2.
  apply (createRpcMethods_agree _ _ _ _ _ _ _ _ _ H1 H2).
  - intros N. unfold Object_keys. rewrite Hperm. reflexivity.
  - intros N i1 i2 Hb1 (eps & Hget & Hinner).
    rewrite <- (Record_get_Permutation r1 r2 N Hperm Hnd) in Hget.
    eapply built_unique; [exact Hb1 |]. exists eps. auto.
Qed.

(** X5. Listing the namespaces of the catalog in another order changes
    nothing but the order in which the keys of the table were created,
    which is not recorded here: when the builder returns on both catalogs,
    the two tables have the same own keys, the same object under each of
    them, and the same prototype. *)
Theorem X5_namespace_order r1 r2 supported rm t1 t2 rm1 rm2 :
  r1 ≡ₚ r2 -> NoDup (Object_keys r1) ->
  createRpcMethods r1 supported rm = (Normal t1, rm1) ->
  createRpcMethods r2 supported rm = (Normal t2, rm2) ->
  (forall N, own t1 !! N = own t2 !! N) /\ proto t1 = proto t2.
Proof.
  intros Hperm Hnd H1 H2.
  rewrite (createRpcMethods_Permutation _ _ _ _ _ _ _ _ Hperm Hnd H1 H2).
  auto.
Qed.

Lemma createRpcMethods_members r1 r2 supported rm t1 t2 rm1 rm2 :
  Object_keys r1 = Object_keys r2 ->
  (forall N eps1 eps2,
     Record_get r1 N = Some eps1 -> Record_get r2 N = Some eps2 ->
     forall e, e ∈ eps1 <-> e ∈ eps2) ->
  createRpcMethods r1 supported rm = (Normal t1, rm1) ->
  createRpcMethods r2 supported rm = (Normal t2, rm2) ->
  t1 = t2.
Proof.
  intros Hkeys Hmem H1 H2.
  apply (createRpcMethods_agree _ _ _ _ _ _ _ _ _ H1 H2).
  - intros N. rewrite Hkeys. reflexivity.
  - intros N i1 i2 Hb1 Hb2.
    pose proof (built_clean _ _ _ _ Hb1) as Hc1.
    pose proof (built_clean _ _ _ _ Hb2) as Hc2.
    destruct Hb1 as (eps1 & Hg1 & Hi1). destruct Hb2 as (eps2 & Hg2 & Hi2).
    apply stored_ext; [assumption | assumption |]. intros e.
    destruct (stored i1 e) as [f|] eqn:Hs1.
    + apply (endpoints_loop_exact _ _ _ _ _ _ _ _ (Hi1 idle)) in Hs1
        as (Hin & Hsup & ->).
      symmetry. apply (endpoints_loop_exact _ _ _ _ _ _ _ _ (Hi2 idle)).
      rewrite <- (Hmem N eps1 eps2 Hg1 Hg2). auto.
    + destruct (stored i2 e) as [f|] eqn:Hs2; [| reflexivity].
      apply (endpoints_loop_exact _ _ _ _ _ _ _ _ (Hi2 idle)) in Hs2
        as (Hin & Hsup & ->).
      rewrite <- (Hmem N eps1 eps2 Hg1 Hg2) in Hin.
      assert (stored i1 e = Some {| rpcNamespace := N; endpointName := e |})
        as Hs1' by (apply (endpoints_loop_exact _ _ _ _ _ _ _ _ (Hi1 idle)); auto).
      congruence.
Qed.

(** X6. Listing the names of a sequence in another order, or repeating
    some, changes nothing but the order in which the names were created
    under their namespace, which is not recorded here: two catalogs with
    the same keys whose sequences have, namespace by namespace, the same
    members give, when the builder returns on both, tables with the same
    own keys; under each of them, and in the prototype if one is
    installed, the same names hold the same callers, and the prototypes
    are the same. *)
Theorem X6_sequence_members r1 r2 supported rm t1 t2 rm1 rm2 :
  Object_keys r1 = Object_keys r2 ->
  (forall N eps1 eps2,
     Record_get r1 N = Some eps1 -> Record_get r2 N = Some eps2 ->
     forall e, e ∈ eps1 <-> e ∈ eps2) ->
  createRpcMethods r1 supported rm = (Normal t1, rm1) ->
  createRpcMethods r2 supported rm = (Normal t2, rm2) ->
  (forall N, is_Some (own t1 !! N) <-> is_Some (own t2 !! N)) /\
  (forall N i1 i2 e,
     stored t1 N = Some i1 -> stored t2 N = Some i2 ->
     own i1 !! e = own i2 !! e /\ proto i1 = proto i2) /\
  (is_Some (proto t1) <-> is_Some (proto t2)).
Proof.
  intros Hkeys Hmem H1 H2.
  rewrite (createRpcMethods_members _ _ _ _ _ _ _ _ Hkeys Hmem H1 H2).
  split; [reflexivity |]. split; [| reflexivity].
  intros N i1 i2 e Hs1 Hs2. rewrite Hs1 in Hs2. inversion Hs2; subst. auto.
Qed.

(** X7. Supporting more never removes an entry: when every identifier of
    one supported list is in another and the builder returns on both, each
    namespace of the first table is in the second, with at least the same
    callers under the same names. *)
Theorem X7_supported_monotone rpcList s1 s2 rm t1 t2 rm1 rm2 :
  (forall x, x ∈ s1 -> x ∈ s2) ->
  createRpcMethods rpcList s1 rm = (Normal t1, rm1) ->
  createRpcMethods rpcList s2 rm = (Normal t2, rm2) ->
  forall N i1, own t1 !! N = Some i1 ->
    exists i2, own t2 !! N = Some i2 /\
      forall e f, own i1 !! e = Some f -> own i2 !! e = Some f.
Proof.
  intros Hsub H1 H2 N i1 Hown1.
  destruct (createRpcMethods_own_built _ _ _ _ _ _ _ H1 Hown1)
    as (Hin & Hne & Hb1).
  destruct (namespaces_loop_present _ _ _ _ _ _ _ N H2 Hin Hne)
    as (i2 & Hown2 & Hb2).
  exists i2. split; [exact Hown2 |]. intros e f Hf.
  pose proof (built_clean _ _ _ _ Hb1) as Hc1.
  pose proof (clean_stored_own _ _ _ Hc1 Hf) as He.
  destruct Hb1 as (eps & Hg1 & Hi1). destruct Hb2 as (eps' & Hg2 & Hi2).
  rewrite Hg1 in Hg2. inversion Hg2; subst eps'.
  apply stored_own in Hf.
  apply (endpoints_loop_exact _ _ _ _ _ _ _ _ (Hi1 idle)) in Hf
    as (Hine & Hsup & ->).
  rewrite <- stored_ne_proto by assumption.
  apply (endpoints_loop_exact _ _ _ _ _ _ _ _ (Hi2 idle)).
  apply includes_true in Hsup. apply Hsub, includes_true in Hsup. auto.
Qed.

(** X8. With nothing supported the builder never throws and makes no
    caller: it returns a table in which every namespace, and the prototype
    if a namespace [__proto__] installed one, is the empty object. *)
Theorem X8_nothing_supported rpcList rm :
  exists table,
    createRpcMethods rpcList [] rm = (Normal table, rm) /\
    (forall N, N ∈ Object_keys rpcList -> N <> "__proto__" ->
       own table !! N = Some empty_object) /\
    (forall E, proto table = Some E -> E = empty_object) /\
    (forall f, ~ produced table f).
Proof.
  destruct (namespaces_loop_normal rpcList [] (Object_keys rpcList) empty_object)
    as (table & Hrun).
  - intros N eps _ _ H. inversion H.
  - apply Record_get_keys.
  - intros E. discriminate.
  - exists table. specialize (Hrun rm). split; [exact Hrun |].
    assert (forall N inner, stored table N = Some inner -> inner = empty_object)
      as Hempty.
    { intros N inner Hst.
      apply (createRpcMethods_exact _ _ _ _ _ _ _ Hrun) in Hst
        as [_ (eps & _ & Hinner)].
      specialize (Hinner idle).
      rewrite endpoints_loop_unsupported in Hinner
        by (intros e _ H; inversion H).
      inversion Hinner. reflexivity. }
    destruct (createRpcMethods_clean _ _ _ _ _ Hrun) as [Hc _].
    repeat split.
    + intros N Hin Hne.
      destruct (namespaces_loop_present _ _ _ _ _ _ _ N Hrun Hin Hne)
        as (inner & Hown & _).
      rewrite Hown. f_equal. eapply Hempty, stored_own, Hown.
    + intros E HE. apply (Hempty "__proto__").
      rewrite (stored_clean_proto table Hc). exact HE.
    + intros f (N & e & inner & HN & He).
      rewrite (Hempty N inner HN), stored_empty in He. discriminate.
Qed.

(** X9. The entry of a namespace depends on that namespace's sequence
    only: two catalogs that have the same sequence for a namespace other
    than [__proto__] give, when the builder returns on both, the same
    object under it, whatever else they contain. *)
Theorem X9_namespace_local r1 r2 supported rm t1 t2 rm1 rm2 N eps :
  createRpcMethods r1 supported rm = (Normal t1, rm1) ->
  createRpcMethods r2 supported rm = (Normal t2, rm2) ->
  Record_get r1 N = Some eps -> Record_get r2 N = Some eps ->
  N <> "__proto__" ->
  exists inner, own t1 !! N = Some inner /\ own t2 !! N = Some inner.
Proof.
  intros H1 H2 Hg1 Hg2 Hne.
  assert (forall (r : list (string * list string)),
            Record_get r N = Some eps -> N ∈ Object_keys r) as Hkey.
  { intros r Hg. apply Record_get_Some in Hg. unfold Object_keys.
    apply list_elem_of_fmap. exists (N, eps). auto. }
  destruct (namespaces_loop_present _ _ _ _ _ _ _ N H1 (Hkey _ Hg1) Hne)
    as (i1 & Hown1 & eps1 & Hg1' & Hi1).
  destruct (namespaces_loop_present _ _ _ _ _ _ _ N H2 (Hkey _ Hg2) Hne)
    as (i2 & Hown2 & eps2 & Hg2' & Hi2).
  rewrite Hg1 in Hg1'. rewrite Hg2 in Hg2'.
  inversion Hg1'; subst eps1. inversion Hg2'; subst eps2.
  specialize (Hi1 idle). rewrite Hi2 in Hi1. inversion Hi1; subst i2.
  exists i1. auto.
Qed.

(** ** The constructor *)

(** X14. The constructor returns exactly when its three builds return, and
    then each field holds the table built from its own catalog and
    supported list; a build that throws makes the constructor throw. *)
Theorem X14_constructor_fields pl kl sl ps ks ss rm p :
  constructor pl kl sl ps ks ss rm = (Normal p, rm) <->
  createRpcMethods pl ps rm = (Normal (polkadot p), rm) /\
  createRpcMethods kl ks rm = (Normal (kusama p), rm) /\
  createRpcMethods sl ss rm = (Normal (substrate p), rm).
Proof.
  unfold constructor, bind, ret.
  rewrite (silent_run _ rm (createRpcMethods_silent pl ps) rm).
  destruct (createRpcMethods pl ps rm).1 as [t1|e1]; simpl.
  2: { split; [discriminate | intros ([=] & _)]. }
  rewrite (silent_run _ rm (createRpcMethods_silent kl ks) rm).
  destruct (createRpcMethods kl ks rm).1 as [t2|e2]; simpl.
  2: { split; [discriminate | intros (_ & [=] & _)]. }
  rewrite (silent_run _ rm (createRpcMethods_silent sl ss) rm).
  destruct (createRpcMethods sl ss rm).1 as [t3|e3]; simpl.
  2: { split; [discriminate | intros (_ & _ & [=])]. }
  split.
  - intros [= <-]. simpl. auto.
  - intros ([= ->] & [= ->] & [= ->]). destruct p; reflexivity.
Qed.

(** ** Identifiers *)

Lemma append_nil (b : string) : "" +:+ b = b.
Proof. reflexivity. Qed.

Lemma append_cons (x : Ascii.ascii) (a b : string) :
  String x a +:+ b = String x (a +:+ b).
Proof. reflexivity. Qed.

Lemma append_assoc (a b c : string) : (a +:+ b) +:+ c = a +:+ b +:+ c.
Proof.
  induction a as [|x a IH]; [reflexivity |].
  rewrite !append_cons, IH. reflexivity.
Qed.

(** X10. For namespaces without the character [_] the identifier
    determines the namespace and the endpoint name it was made from. *)
Theorem X10_identifier_determines_pair N N' e e' :
  no_underscore N = true -> no_underscore N' = true ->
  N +:+ "_" +:+ e = N' +:+ "_" +:+ e' ->
  N = N' /\ e = e'.
Proof.
  revert N'. induction N as [|c N IH]; intros [|c' N'] H1 H2 Heq;
    repeat (rewrite append_cons in Heq || rewrite append_nil in Heq).
  - injection Heq as ->. auto.
  - injection Heq as Hc Ht. subst c'. compute in H2. discriminate H2.
  - injection Heq as Hc Ht. subst c. compute in H1. discriminate H1.
  - injection Heq as Hc Ht. subst c'.
    change (no_underscore (String c N))
      with (if String.eqb (String c "") "_" then false else no_underscore N)
      in H1.
    change (no_underscore (String c N'))
      with (if String.eqb (String c "") "_" then false else no_underscore N')
      in H2.
    destruct (String.eqb (String c "") "_"); [discriminate H1 |].
    destruct (IH N' H1 H2 Ht) as [-> ->]. auto.
Qed.

(** X11. Without that restriction it does not: a namespace [N_x] with the
    endpoint [e] and the namespace [N] with the endpoint [x_e] have the
    same identifier, so the supported list cannot tell them apart and
    their callers forward under the same method name. *)
Theorem X11_identifier_conflates N x e supported argv :
  includes supported (qualified (N +:+ "_" +:+ x) e)
  = includes supported (qualified N (x +:+ "_" +:+ e)) /\
  method (request_of {| rpcNamespace := N +:+ "_" +:+ x; endpointName := e |} argv)
  = method (request_of {| rpcNamespace := N; endpointName := x +:+ "_" +:+ e |} argv).
Proof.
  assert (qualified (N +:+ "_" +:+ x) e = qualified N (x +:+ "_" +:+ e)) as Heq.
  { unfold qualified. rewrite append_assoc. reflexivity. }
  split; [rewrite Heq; reflexivity | exact Heq].
Qed.

(** ** When the builder throws *)

Lemma Object_prototype_accepts (k : string) :
  Object_prototype k <> ReadonlyData /\ Object_prototype k <> SetterThrows.
Proof.
  destruct (Object_prototype_cases k) as [[-> _] | [_ [-> | ->]]];
    split; discriminate.
Qed.

Lemma includes_app (l1 l2 : list string) (x : string) :
  includes (l1 ++ l2) x = includes l1 x || includes l2 x.
Proof.
  induction l1 as [|y l1 IH]; simpl; [reflexivity |].
  destruct (String.eqb y x); [reflexivity | exact IH].
Qed.

Lemma arrow_function_refuses (k : string) :
  arrow_function k = ReadonlyData \/ arrow_function k = SetterThrows ->
  refused_below_function k = true.
Proof.
  unfold arrow_function, Function_prototype, refused_below_function.
  change ["length"; "name"; "caller"; "arguments"]
    with (["length"; "name"] ++ ["caller"; "arguments"]).
  rewrite includes_app.
  destruct (includes ["length"; "name"] k); [reflexivity |].
  destruct (includes ["caller"; "arguments"] k); [reflexivity |].
  destruct (Object_prototype_accepts k) as [H1 H2].
  destruct (includes _ k); intros [H | H]; congruence.
Qed.

(** An assignment to a namespace's object throws only below a function,
    and only for a refused name. *)
Lemma object_set_inner_throw (k : string) (f : RpcCaller) (o : EndPoints) e :
  object_set k f o = Throw e ->
  proto o <> None /\ refused_below_function k = true.
Proof.
  unfold object_set. rewrite chain_find_object.
  destruct (own o !! k); [discriminate |].
  destruct (proto o) as [g|]; simpl.
  - intros H. split; [discriminate |]. apply arrow_function_refuses.
    unfold chain_find, RpcCaller_chain in H.
    destruct (arrow_function k); try discriminate; auto.
  - destruct (Object_prototype_accepts k) as [H1 H2].
    destruct (Object_prototype k); try discriminate; congruence.
Qed.

(** An assignment installs a prototype for the key [__proto__] only. *)
Lemma object_set_proto_cases {V : Type} `{ChainLaws V}
    (k : string) (v : V) (o o' : object V) :
  object_set k v o = Normal o' ->
  proto o' = proto o \/ (k = "__proto__" /\ proto o' = Some v).
Proof.
  unfold object_set. destruct (chain_find o k) eqn:Hf; intros [= <-]; simpl;
    auto.
  right. apply (setter_proto_key (V := object V)) in Hf. auto.
Qed.

Lemma endpoints_loop_throw ns supported endpointNames endPoints rm e rm' :
  endpoints_loop ns supported endpointNames endPoints rm = (Throw e, rm') ->
  (proto endPoints <> None \/
   ("__proto__" ∈ endpointNames /\ qualified ns "__proto__" ∈ supported)) /\
  exists k, refused_below_function k = true /\
            k ∈ endpointNames /\ qualified ns k ∈ supported.
Proof.
  revert endPoints rm.
  induction endpointNames as [|x rest IH]; intros endPoints rm; simpl;
    [discriminate |].
  destruct (includes supported (qualified ns x)) eqn:Hs; simpl.
  - apply includes_true in Hs. unfold bind, lift.
    destruct (object_set x _ endPoints) as [o1|err] eqn:Hset.
    + intros Hrun. destruct (IH _ _ Hrun) as [Hp (k & Hk & Hin & Hsup)].
      split; [| exists k; repeat split; [| right |]; assumption].
      destruct Hp as [Hp | [Hin' Hsup']]; [| right; split; [right |]; assumption].
      destruct (object_set_proto_cases _ _ _ _ Hset) as [Heq | [-> _]];
        [left; congruence |].
      right. split; [left | assumption].
    + intros _. destruct (object_set_inner_throw _ _ _ _ Hset) as [Hp Hk].
      split; [left; assumption |]. exists x. repeat split; [| left |]; assumption.
  - intros Hrun. destruct (IH _ _ Hrun) as [Hp (k & Hk & Hin & Hsup)].
    split; [| exists k; repeat split; [| right |]; assumption].
    destruct Hp as [Hp | [Hin' Hsup']]; [left; assumption |].
    right. split; [right |]; assumption.
Qed.

(** An assignment to the table throws only when the table's prototype has
    a function as its own prototype, and only for a refused name. *)
Lemma object_set_outer_throw (k : string) (E : EndPoints) (t : RpcMethods) e :
  object_set k E t = Throw e ->
  (exists E0, proto t = Some E0 /\ proto E0 <> None) /\
  refused_below_function k = true.
Proof.
  unfold object_set. rewrite chain_find_object.
  destruct (own t !! k); [discriminate |].
  destruct (proto t) as [E0|]; simpl.
  - rewrite chain_find_object. destruct (own E0 !! k); [discriminate |].
    destruct (proto E0) as [g|] eqn:Hg; simpl.
    + intros H. split; [exists E0; split; [reflexivity | congruence] |].
      apply arrow_function_refuses.
      unfold chain_find, RpcCaller_chain in H.
      destruct (arrow_function k); try discriminate; auto.
    + destruct (Object_prototype_accepts k) as [H1 H2].
      destruct (Object_prototype k); try discriminate; congruence.
  - destruct (Object_prototype_accepts k) as [H1 H2].
    destruct (Object_prototype k); try discriminate; congruence.
Qed.

Lemma namespaces_loop_throw rpcList supported objectKeys table rm e rm' :
  namespaces_loop rpcList supported objectKeys table rm = (Throw e, rm') ->
  (forall N, N ∈ objectKeys -> is_Some (Record_get rpcList N)) ->
  (forall E0, proto table = Some E0 -> proto E0 <> None ->
     exists N eps, (N, eps) ∈ rpcList /\ "__proto__" ∈ eps /\
                   qualified N "__proto__" ∈ supported) ->
  (exists N eps, (N, eps) ∈ rpcList /\ "__proto__" ∈ eps /\
                 qualified N "__proto__" ∈ supported) /\
  (exists k, refused_below_function k = true /\
     (k ∈ objectKeys \/
      exists N eps, (N, eps) ∈ rpcList /\ k ∈ eps /\ qualified N k ∈ supported)).
Proof.
  revert table rm.
  induction objectKeys as [|ns rest IH]; intros table rm; simpl;
    [discriminate |].
  intros Hrun Hkeys Hinv.
  destruct (Hkeys ns) as [eps Hget]; [left |]. rewrite Hget in Hrun.
  pose proof (Record_get_Some _ _ _ Hget) as Hentry.
  unfold bind at 1 in Hrun.
  destruct (endpoints_loop ns supported eps empty_object rm)
    as [[i|err] rm1] eqn:Hinner.
  - destruct (silent_inv _ _ _ _ (endpoints_loop_silent _ _ _ _) Hinner)
      as [-> Hall].
    unfold bind, lift in Hrun.
    destruct (object_set ns i table) as [t1|err] eqn:Hset.
    + destruct (IH _ _ Hrun) as [Hw (k & Hk & Hwhere)].
      * intros N HN. apply Hkeys. right. assumption.
      * intros E0 HE0 Hfn.
        destruct (object_set_proto_cases _ _ _ _ Hset) as [Heq | [-> Hnew]];
          [apply (Hinv E0); congruence |].
        assert (E0 = i) as -> by congruence.
        exists "__proto__", eps. split; [assumption |].
        pose proof (endpoints_loop_clean _ _ _ _ _ _ _ Hinner clean_empty) as Hc.
        destruct (proto i) as [g|] eqn:Hg; [| congruence].
        rewrite <- (stored_clean_proto i Hc) in Hg.
        apply (endpoints_loop_exact _ _ _ _ _ _ _ _ Hinner) in Hg
          as (Hin & Hsup & _).
        apply includes_true in Hsup. auto.
      * split; [exact Hw |]. exists k. split; [exact Hk |].
        destruct Hwhere as [Hin | Hend]; [left; right; assumption | right; assumption].
    + destruct (object_set_outer_throw _ _ _ _ Hset) as [(E0 & HE0 & Hfn) Hk].
      split; [apply (Hinv E0 HE0 Hfn) |].
      exists ns. split; [exact Hk | left; left].
  - destruct (endpoints_loop_throw _ _ _ _ _ _ _ Hinner)
      as [[Hp | [Hin Hsup]] (k & Hk & Hkin & Hksup)]; [contradiction |].
    split; [exists ns, eps; auto |].
    exists k. split; [exact Hk |]. right. exists ns, eps. auto.
Qed.

(** X15. The builder throws only on a catalog that names [__proto__] as a
    supported endpoint and also has, as a key or as a supported endpoint,
    one of the names an object below a function refuses: [length], [name],
    [caller], [arguments]. *)
Theorem X15_throw_needs_proto_and_refused_name rpcList supported rm e rm' :
  createRpcMethods rpcList supported rm = (Throw e, rm') ->
  (exists N eps, (N, eps) ∈ rpcList /\ "__proto__" ∈ eps /\
                 N +:+ "_" +:+ "__proto__" ∈ supported) /\
  (exists k, k ∈ ["length"; "name"; "caller"; "arguments"] /\
     (k ∈ Object_keys rpcList \/
      exists N eps, (N, eps) ∈ rpcList /\ k ∈ eps /\
                    N +:+ "_" +:+ k ∈ supported)).
Proof.
  intros Hrun.
  destruct (namespaces_loop_throw _ _ _ _ _ _ _ Hrun) as [Hw (k & Hk & Hwhere)].
  - apply Record_get_keys.
  - intros E0. discriminate.
  - split; [exact Hw |]. exists k. split; [| exact Hwhere].
    apply includes_true. exact Hk.
Qed.

(** ** More on the login check *)

(** X12. At most one address is logged in: two accounts for which
    [isLoggedIn] is true against the same storage have the same address,
    whatever the key. *)
Theorem X12_one_address_logged_in ACCOUNT window a1 a2 :
  Inscribe.isLoggedIn ACCOUNT window a1 = Inscribe.Returned true ->
  Inscribe.isLoggedIn ACCOUNT window a2 = Inscribe.Returned true ->
  Inscribe.address a1 = Inscribe.address a2.
Proof.
  unfold Inscribe.isLoggedIn. destruct window as [items | items |];
    try discriminate.
  destruct (Inscribe.Storage_get items ACCOUNT); simpl; try discriminate.
  intros [= H1] [= H2]. apply String.eqb_eq in H1, H2. congruence.
Qed.

(** X13. Under a key that [localStorage] inherits the check is false for
    every account, whatever is stored: the bracket read gives the built-in
    and never the item. On no page does it return true. *)
Theorem X13_inherited_key_never_logged_in ACCOUNT items account :
  Inscribe.Storage_inherits ACCOUNT = true ->
  Inscribe.isLoggedIn ACCOUNT (Inscribe.Readable items) account
  = Inscribe.Returned false /\
  forall window,
    Inscribe.isLoggedIn ACCOUNT window account <> Inscribe.Returned true.
Proof.
  intros Hkey.
  assert (forall items',
            Inscribe.isLoggedIn ACCOUNT (Inscribe.Readable items') account
            = Inscribe.Returned false) as Hfalse.
  { intros items'. unfold Inscribe.isLoggedIn, Inscribe.Storage_get.
    rewrite Hkey. destruct (String.eqb ACCOUNT "length"); reflexivity. }
  split; [apply Hfalse |].
  intros [items' | items' |]; [rewrite Hfalse | |]; discriminate.
Qed.

(** ** The request manager is not consulted *)

(** X16. What the builder and the constructor return, or throw, does not
    depend on the request manager: on any two of them the outcome is the
    same. *)
Theorem X16_outcome_independent_of_manager rpcList supported rm1 rm2 :
  (createRpcMethods rpcList supported rm1).1
  = (createRpcMethods rpcList supported rm2).1 /\
  forall pl kl sl ps ks ss,
    (constructor pl kl sl ps ks ss rm1).1 = (constructor pl kl sl ps ks ss rm2).1.
Proof.
  split.
  - rewrite (silent_run _ rm2 (createRpcMethods_silent rpcList supported) rm1).
    reflexivity.
  - intros pl kl sl ps ks ss.
    rewrite (silent_run _ rm2 (constructor_silent pl kl sl ps ks ss) rm1).
    reflexivity.
Qed.

(** ** Instances of the further properties *)

Example scenario_proto_names (rm : RequestManager) :
  createRpcMethods proto_catalog proto_supported rm = (Normal proto_table, rm).
Proof. reflexivity. Qed.

Example scenario_two_namespaces (rm : RequestManager) :
  createRpcMethods two_catalog two_supported rm = (Normal two_table, rm).
Proof. reflexivity. Qed.

(** The first scenario: [getBlock] is supported and has its entry. *)
Lemma X1_witness :
  createRpcMethods chain_catalog chain_supported idle
  = (Normal chain_table, idle) /\
  Record_get chain_catalog "chain" = Some ["getBlock"; "getBlockHash"] /\
  "getBlock" ∈ ["getBlock"; "getBlockHash"] /\
  "chain" +:+ "_" +:+ "getBlock" ∈ chain_supported /\
  "chain" <> "__proto__" /\ "getBlock" <> "__proto__" /\
  exists inner,
    own chain_table !! "chain" = Some inner /\
    own inner !! "getBlock"
    = Some {| rpcNamespace := "chain"; endpointName := "getBlock" |}.
Proof.
  assert ("getBlock" ∈ ["getBlock"; "getBlockHash"]) as Hin by left.
  assert ("chain" +:+ "_" +:+ "getBlock" ∈ chain_supported) as Hsup by left.
  assert ("chain" <> "__proto__") as HN by discriminate.
  assert ("getBlock" <> "__proto__") as He by discriminate.
  repeat (split; [first [reflexivity | assumption] |]).
  exact (X1_supported_endpoint_has_entry chain_catalog chain_supported idle
           chain_table idle "chain" ["getBlock"; "getBlockHash"] "getBlock"
           eq_refl eq_refl Hin Hsup HN He).
Defined.

(** The catalog that names [__proto__] twice: its table has the one key
    [chain], and under it the one key [getBlock]. *)
Lemma X2_witness :
  createRpcMethods proto_catalog proto_supported idle
  = (Normal proto_table, idle) /\
  (forall N, is_Some (own proto_table !! N) <->
             N ∈ Object_keys proto_catalog /\ N <> "__proto__") /\
  (forall N inner eps e,
     own proto_table !! N = Some inner -> Record_get proto_catalog N = Some eps ->
     (is_Some (own inner !! e) <->
      e ∈ eps /\ N +:+ "_" +:+ e ∈ proto_supported /\ e <> "__proto__")).
Proof.
  split; [reflexivity |].
  exact (X2_exact_keys proto_catalog proto_supported idle proto_table idle
           eq_refl).
Defined.

(** The first scenario names no [__proto__]. *)
Lemma X3_witness :
  createRpcMethods chain_catalog chain_supported idle
  = (Normal chain_table, idle) /\
  ("__proto__" ∉ Object_keys chain_catalog -> proto chain_table = None) /\
  (forall N inner eps,
     own chain_table !! N = Some inner -> Record_get chain_catalog N = Some eps ->
     ("__proto__" ∈ eps -> N +:+ "_" +:+ "__proto__" ∉ chain_supported) ->
     proto inner = None) /\
  own chain_table !! "__proto__" = None /\
  (forall N inner,
     own chain_table !! N = Some inner -> own inner !! "__proto__" = None).
Proof.
  split; [reflexivity |].
  exact (X3_prototypes_untouched chain_catalog chain_supported idle
           chain_table idle eq_refl).
Defined.

(** The catalog that names [__proto__] twice: both prototypes are
    installed. *)
Lemma X4_witness :
  createRpcMethods proto_catalog proto_supported idle
  = (Normal proto_table, idle) /\
  (forall eps, Record_get proto_catalog "__proto__" = Some eps ->
     exists inner, proto proto_table = Some inner /\
       forall e, is_Some (own inner !! e) <->
                 e ∈ eps /\ "__proto__" +:+ "_" +:+ e ∈ proto_supported /\
                 e <> "__proto__") /\
  (forall N inner eps,
     own proto_table !! N = Some inner -> Record_get proto_catalog N = Some eps ->
     "__proto__" ∈ eps -> N +:+ "_" +:+ "__proto__" ∈ proto_supported ->
     proto inner
     = Some {| rpcNamespace := N; endpointName := "__proto__" |}).
Proof.
  split; [reflexivity |].
  exact (X4_proto_becomes_prototype proto_catalog proto_supported idle
           proto_table idle eq_refl).
Defined.

(** The two namespaces, listed in either order. *)
Lemma X5_witness :
  two_catalog ≡ₚ [("state", ["call"]); ("chain", ["getBlock"; "getBlockHash"])] /\
  NoDup (Object_keys two_catalog) /\
  createRpcMethods two_catalog two_supported idle = (Normal two_table, idle) /\
  createRpcMethods
    [("state", ["call"]); ("chain", ["getBlock"; "getBlockHash"])]
    two_supported idle
  = (Normal two_table, idle) /\
  (forall N, own two_table !! N = own two_table !! N) /\
  proto two_table = proto two_table.
Proof.
  assert (two_catalog
          ≡ₚ [("state", ["call"]); ("chain", ["getBlock"; "getBlockHash"])])
    as Hperm by apply perm_swap.
  assert (NoDup (Object_keys two_catalog)) as Hnd.
  { unfold Object_keys, two_catalog. simpl. apply NoDup_cons. split.
    - rewrite list_elem_of_singleton. discriminate.
    - apply NoDup_singleton. }
  split; [exact Hperm |]. split; [exact Hnd |].
  split; [reflexivity |]. split; [reflexivity |].
  exact (X5_namespace_order two_catalog
           [("state", ["call"]); ("chain", ["getBlock"; "getBlockHash"])]
           two_supported idle two_table two_table idle idle Hperm Hnd
           eq_refl eq_refl).
Defined.

(** A sequence with a repeated name, and the same names in another order. *)
Lemma X6_witness :
  Object_keys [("chain", ["getBlock"; "getBlockHash"; "getBlock"])]
  = Object_keys [("chain", ["getBlockHash"; "getBlock"])] /\
  (forall N eps1 eps2,
     Record_get [("chain", ["getBlock"; "getBlockHash"; "getBlock"])] N
     = Some eps1 ->
     Record_get [("chain", ["getBlockHash"; "getBlock"])] N = Some eps2 ->
     forall e, e ∈ eps1 <-> e ∈ eps2) /\
  createRpcMethods [("chain", ["getBlock"; "getBlockHash"; "getBlock"])]
    chain_supported idle
  = (Normal chain_table, idle) /\
  createRpcMethods [("chain", ["getBlockHash"; "getBlock"])]
    chain_supported idle
  = (Normal chain_table, idle) /\
  (forall N, is_Some (own chain_table !! N) <-> is_Some (own chain_table !! N)) /\
  (forall N i1 i2 e,
     stored chain_table N = Some i1 -> stored chain_table N = Some i2 ->
     own i1 !! e = own i2 !! e /\ proto i1 = proto i2) /\
  (is_Some (proto chain_table) <-> is_Some (proto chain_table)).
Proof.
  assert (forall N eps1 eps2,
            Record_get [("chain", ["getBlock"; "getBlockHash"; "getBlock"])] N
            = Some eps1 ->
            Record_get [("chain", ["getBlockHash"; "getBlock"])] N = Some eps2 ->
            forall e, e ∈ eps1 <-> e ∈ eps2) as Hmem.
  { intros N eps1 eps2 H1 H2 e.
    apply Record_get_Some, list_elem_of_singleton in H1.
    apply Record_get_Some, list_elem_of_singleton in H2.
    injection H1 as _ ->. injection H2 as _ ->.
    rewrite !elem_of_cons. tauto. }
  split; [reflexivity |]. split; [exact Hmem |].
  split; [reflexivity |]. split; [reflexivity |].
  exact (X6_sequence_members
           [("chain", ["getBlock"; "getBlockHash"; "getBlock"])]
           [("chain", ["getBlockHash"; "getBlock"])]
           chain_supported idle chain_table chain_table idle idle
           eq_refl Hmem eq_refl eq_refl).
Defined.

(** Supporting [chain_getBlockHash] as well keeps [getBlock]. *)
Lemma X7_witness :
  (forall x, x ∈ chain_supported ->
             x ∈ ["chain_getBlock"; "chain_getBlockHash"]) /\
  createRpcMethods chain_catalog chain_supported idle
  = (Normal chain_table, idle) /\
  createRpcMethods chain_catalog ["chain_getBlock"; "chain_getBlockHash"] idle
  = (Normal
       (Object
          {["chain" :=
              Object
                {["getBlock" := chain_getBlock;
                  "getBlockHash" :=
                    {| rpcNamespace := "chain"; endpointName := "getBlockHash" |}]}
                None]}
          None), idle) /\
  forall N i1, own chain_table !! N = Some i1 ->
    exists i2,
      own (Object
             {["chain" :=
                 Object
                   {["getBlock" := chain_getBlock;
                     "getBlockHash" :=
                       {| rpcNamespace := "chain"; endpointName := "getBlockHash" |}]}
                   None]}
             None) !! N = Some i2 /\
      forall e f, own i1 !! e = Some f -> own i2 !! e = Some f.
Proof.
  assert (forall x, x ∈ chain_supported ->
                    x ∈ ["chain_getBlock"; "chain_getBlockHash"]) as Hsub.
  { intros x Hx. apply list_elem_of_singleton in Hx. subst x. left. }
  split; [exact Hsub |]. split; [reflexivity |]. split; [reflexivity |].
  exact (X7_supported_monotone chain_catalog chain_supported
           ["chain_getBlock"; "chain_getBlockHash"] idle chain_table _ idle idle
           Hsub eq_refl eq_refl).
Defined.

(** The namespace [chain] alone and beside [state]. *)
Lemma X9_witness :
  createRpcMethods chain_catalog two_supported idle = (Normal chain_table, idle) /\
  createRpcMethods two_catalog two_supported idle = (Normal two_table, idle) /\
  Record_get chain_catalog "chain" = Some ["getBlock"; "getBlockHash"] /\
  Record_get two_catalog "chain" = Some ["getBlock"; "getBlockHash"] /\
  "chain" <> "__proto__" /\
  exists inner,
    own chain_table !! "chain" = Some inner /\
    own two_table !! "chain" = Some inner.
Proof.
  assert ("chain" <> "__proto__") as Hne by discriminate.
  repeat (split; [first [reflexivity | assumption] |]).
  exact (X9_namespace_local chain_catalog two_catalog two_supported idle
           chain_table two_table idle idle "chain"
           ["getBlock"; "getBlockHash"] eq_refl eq_refl eq_refl eq_refl Hne).
Defined.

(** [chain] and [state] have no [_]. *)
Lemma X10_witness :
  no_underscore "chain" = true /\ no_underscore "chain" = true /\
  "chain" +:+ "_" +:+ "getBlock" = "chain" +:+ "_" +:+ "getBlock" /\
  "chain" = "chain" /\ "getBlock" = "getBlock".
Proof.
  split; [reflexivity |]. split; [reflexivity |]. split; [reflexivity |].
  exact (X10_identifier_determines_pair "chain" "chain" "getBlock" "getBlock"
           eq_refl eq_refl eq_refl).
Defined.

(** The address stored under ["account"]. *)
Lemma X12_witness :
  Inscribe.isLoggedIn "account" (Inscribe.Readable {["account" := "0xABC"]})
    {| Inscribe.address := "0xABC"; Inscribe.meta_source := "polkadot-js" |}
  = Inscribe.Returned true /\
  Inscribe.isLoggedIn "account" (Inscribe.Readable {["account" := "0xABC"]})
    {| Inscribe.address := "0xABC"; Inscribe.meta_source := "talisman" |}
  = Inscribe.Returned true /\
  "0xABC" = "0xABC".
Proof.
  split; [reflexivity |]. split; [reflexivity |].
  exact (X12_one_address_logged_in "account"
           (Inscribe.Readable {["account" := "0xABC"]})
           {| Inscribe.address := "0xABC"; Inscribe.meta_source := "polkadot-js" |}
           {| Inscribe.address := "0xABC"; Inscribe.meta_source := "talisman" |}
           eq_refl eq_refl).
Defined.

(** An item stored under ["getItem"] is hidden by the method. *)
Lemma X13_witness :
  Inscribe.Storage_inherits "getItem" = true /\
  Inscribe.isLoggedIn "getItem" (Inscribe.Readable {["getItem" := "0xABC"]})
    {| Inscribe.address := "0xABC"; Inscribe.meta_source := "polkadot-js" |}
  = Inscribe.Returned false /\
  forall window,
    Inscribe.isLoggedIn "getItem" window
      {| Inscribe.address := "0xABC"; Inscribe.meta_source := "polkadot-js" |}
    <> Inscribe.Returned true.
Proof.
  split; [reflexivity |].
  exact (X13_inherited_key_never_logged_in "getItem" {["getItem" := "0xABC"]}
           {| Inscribe.address := "0xABC"; Inscribe.meta_source := "polkadot-js" |}
           eq_refl).
Defined.

(** The catalog on which the builder throws names [__proto__] and [name]. *)
Lemma X15_witness :
  createRpcMethods [("chain", ["__proto__"; "name"])]
    ["chain___proto__"; "chain_name"] idle
  = (Throw TypeError, idle) /\
  (exists N eps, (N, eps) ∈ [("chain", ["__proto__"; "name"])] /\
                 "__proto__" ∈ eps /\
                 N +:+ "_" +:+ "__proto__" ∈ ["chain___proto__"; "chain_name"]) /\
  (exists k, k ∈ ["length"; "name"; "caller"; "arguments"] /\
     (k ∈ Object_keys [("chain", ["__proto__"; "name"])] \/
      exists N eps, (N, eps) ∈ [("chain", ["__proto__"; "name"])] /\ k ∈ eps /\
                    N +:+ "_" +:+ k ∈ ["chain___proto__"; "chain_name"])).
Proof.
  split; [reflexivity |].
  exact (X15_throw_needs_proto_and_refused_name
           [("chain", ["__proto__"; "name"])] ["chain___proto__"; "chain_name"]
           idle TypeError idle eq_refl).
Defined.
